(** * natpass client connection multiplexer (code/client/conn/conn.go)

    A shallow embedding of the [conn] package: the link registry, the drop
    map, the channel objects the registry points to, and the goroutines
    [loopRead], [loopWrite] and [checkDrop] as labelled step functions.
    Every blocking call and every reading of the outside world (a socket
    read, the case a [select] takes, [time.Now()]) is an event supplied by
    the environment, so each goroutine is an executable function of the
    shared state, its own program point and the event. *)

From Stdlib Require Import ZArith String List Lia.
From stdpp Require Import gmap strings list fin_maps.

Local Open Scope string_scope.
Local Open Scope Z_scope.

(** ** Go base types *)

(** [time.Duration] and [time.Time], both counted in nanoseconds. *)
Abbreviation Duration := Z (only parsing).
Abbreviation Time := Z (only parsing).

Module time.
Definition Second : Duration := 1000000000.
Definition Minute : Duration := 60 * Second.
(** [t.Add(d)] *)
Definition Add (t : Time) (d : Duration) : Time := t + d.
(** [t.After(u)]: strictly later. *)
Definition After (t u : Time) : bool := u <? t.
End time.

(** Go's [int] on the 64-bit targets: addition wraps around. *)
Definition int_wrap (z : Z) : Z := (z + 2 ^ 63) mod 2 ^ 64 - 2 ^ 63.
Definition int_add (a b : Z) : Z := int_wrap (a + b).

Module strings.
(** [strings.Contains(s, substr)] *)
Fixpoint Contains (s substr : string) : bool :=
  String.prefix substr s ||
  match s with
  | EmptyString => false
  | String _ rest => Contains rest substr
  end.
End strings.

(** ** The collaborators of package [network] and [global] *)

Module network.
(** Modelled from the spec: the type tag of [network.Msg] ("handshake,
    keepalive, data, ..."), whose generated declaration is not part of
    the sources; every tag the multiplexer does not name is [Msg_other]. *)
Inductive Msg_Type :=
| Msg_unknown
| Msg_handshake
| Msg_keepalive
| Msg_other (code : Z).

(** Modelled from the spec: the payload is opaque to the multiplexer,
    except for the handshake payload that carries the key. *)
Inductive Msg_Payload :=
| Payload_nil
| Msg_Hsp (Enc : list Byte.byte)
| Payload_opaque (data : list Byte.byte).

Record Msg := mkMsg {
  XType : Msg_Type;
  From : string;
  To : string;
  LinkId : string;
  Payload : Msg_Payload
}.

Definition is_keepalive (t : Msg_Type) : bool :=
  match t with Msg_keepalive => true | _ => false end.

Definition set_From (id : string) (m : Msg) : Msg :=
  mkMsg (XType m) id (To m) (LinkId m) (Payload m).
End network.
Export network.

Module global.
(** Modelled from the spec: the configuration record ("server address,
    TLS flag, client identity, encryption key material, read/write
    timeout durations"), declared outside the sources. *)
Record Configure := mkConfigure {
  ID : string;
  Server : string;
  UseSSL : bool;
  Enc : list Byte.byte;
  ReadTimeout : Duration;
  WriteTimeout : Duration
}.
End global.
Export global.

(** ** Channels

    A Go channel is an object on the heap; the registry, the callers that
    obtained it through [ChanRead] and the read loop all hold the same
    reference.  The heap maps a reference to the channel's capacity and
    its buffered messages, oldest first. *)

Definition chan_ref := positive.

Record Chan := mkChan {
  chan_cap : nat;
  chan_buf : list Msg
}.

(** [make(chan *network.Msg, n)] *)
Definition chan_make (n : nat) (h : gmap chan_ref Chan) : chan_ref * gmap chan_ref Chan :=
  let l := fresh (dom h) in (l, <[l := mkChan n []]> h).

Definition chan_push (c : Chan) (m : Msg) : Chan :=
  mkChan (chan_cap c) (chan_buf c ++ [m]).

(** [ch <- m] at the moment it goes through.  [None]: the send cannot
    proceed now, because [ch] is nil ([None]) or its buffer is full. *)
Definition chan_send (ch : option chan_ref) (m : Msg) (h : gmap chan_ref Chan)
  : option (gmap chan_ref Chan) :=
  match ch with
  | None => None
  | Some l =>
      match h !! l with
      | None => None
      | Some c =>
          if (length (chan_buf c) <? chan_cap c)%nat
          then Some (<[l := chan_push c m]> h)
          else None
      end
  end.

(** [m := <-ch] at the moment it goes through. *)
Definition chan_recv (ch : option chan_ref) (h : gmap chan_ref Chan)
  : option (Msg * gmap chan_ref Chan) :=
  match ch with
  | None => None
  | Some l =>
      match h !! l with
      | None => None
      | Some c =>
          match chan_buf c with
          | [] => None
          | m :: rest => Some (m, <[l := mkChan (chan_cap c) rest]> h)
          end
      end
  end.

(** The messages waiting in a channel. *)
Definition pending (h : gmap chan_ref Chan) (l : chan_ref) : list Msg :=
  match h !! l with
  | Some c => chan_buf c
  | None => []
  end.

(** ** The logger and the network, as the traces of the calls made *)

Module logging.
Inductive Level := Debug | Info | Error.
Inductive Arg := AStr (s : string) | AType (t : Msg_Type).
Record Entry := mkEntry {
  level : Level;
  format : string;
  args : list Arg
}.
End logging.

Inductive NetCall :=
| NetDial (tls : bool) (addr : string) (err : option string)
| NetWriteMessage (msg : Msg) (timeout : Duration) (err : option string)
| NetClose.

(** The handle [network.NewConn(dial)] returns. *)
Record NetConn := mkNetConn {
  remote : string;
  secure : bool
}.

(** ** The connection

    The fields of the Go struct (the two locks leave no trace in the data:
    each locked region is one step below), the cancellation of [ctx], and
    the three things the struct refers to: the channel heap, the calls made
    on the network so far and the lines logged so far. *)

Record Conn := mkConn {
  cfg : Configure;
  conn : option NetConn;
  read : gmap string chan_ref;
  unknownRead : chan_ref;
  write : chan_ref;
  drop : gmap string Time;
  ctx_done : bool;
  chans : gmap chan_ref Chan;
  net : list NetCall;
  log : list logging.Entry
}.

Definition set_conn (x : option NetConn) (c : Conn) : Conn :=
  mkConn (cfg c) x (read c) (unknownRead c) (write c) (drop c) (ctx_done c)
         (chans c) (net c) (log c).
Definition set_read (x : gmap string chan_ref) (c : Conn) : Conn :=
  mkConn (cfg c) (conn c) x (unknownRead c) (write c) (drop c) (ctx_done c)
         (chans c) (net c) (log c).
Definition set_drop (x : gmap string Time) (c : Conn) : Conn :=
  mkConn (cfg c) (conn c) (read c) (unknownRead c) (write c) x (ctx_done c)
         (chans c) (net c) (log c).
Definition set_ctx_done (x : bool) (c : Conn) : Conn :=
  mkConn (cfg c) (conn c) (read c) (unknownRead c) (write c) (drop c) x
         (chans c) (net c) (log c).
Definition set_chans (x : gmap chan_ref Chan) (c : Conn) : Conn :=
  mkConn (cfg c) (conn c) (read c) (unknownRead c) (write c) (drop c)
         (ctx_done c) x (net c) (log c).
Definition net_call (k : NetCall) (c : Conn) : Conn :=
  mkConn (cfg c) (conn c) (read c) (unknownRead c) (write c) (drop c)
         (ctx_done c) (chans c) (net c ++ [k]) (log c).
Definition logf (l : logging.Level) (fmt : string) (a : list logging.Arg)
  (c : Conn) : Conn :=
  mkConn (cfg c) (conn c) (read c) (unknownRead c) (write c) (drop c)
         (ctx_done c) (chans c) (net c) (log c ++ [logging.mkEntry l fmt a]).

(** [conn.cancel()] *)
Definition cancel (c : Conn) : Conn := set_ctx_done true c.

(** [conn.close()] *)
Definition close (c : Conn) : Conn :=
  match conn c with
  | Some _ => net_call NetClose c
  | None => c
  end.

(** What the deferred calls of [loopRead] and [loopWrite] do when the loop
    returns: [conn.cancel()], then [conn.close()]. *)
Definition loop_return (c : Conn) : Conn := close (cancel c).

(** ** Construction *)

Definition handshake_timeout : Duration := 5 * time.Second.

Definition handshake_msg (cfg : Configure) : Msg :=
  mkMsg Msg_handshake (ID cfg) "server" "" (Msg_Hsp (Enc cfg)).

(** [writeHandshake]; [err] is what [WriteMessage] returns. *)
Definition writeHandshake (cfg : Configure) (err : option string) (c : Conn)
  : Conn * option string :=
  (net_call (NetWriteMessage (handshake_msg cfg) handshake_timeout err) c, err).

(** [conn.connect()]; [dial_err] is what the dial returns. *)
Definition connect (dial_err hs_err : option string) (c : Conn)
  : Conn * option string :=
  let c := net_call (NetDial (UseSSL (cfg c)) (Server (cfg c)) dial_err) c in
  match dial_err with
  | Some err => (logf logging.Error "dial: %v" [logging.AStr err] c, Some err)
  | None =>
      let cn := mkNetConn (Server (cfg c)) (UseSSL (cfg c)) in
      let '(c, err) := writeHandshake (cfg c) hs_err c in
      match err with
      | Some err =>
          (logf logging.Error "write handshake: %v" [logging.AStr err] c,
           Some err)
      | None =>
          (set_conn (Some cn)
             (logf logging.Info "%s connected" [logging.AStr (Server (cfg c))] c),
           None)
      end
  end.

(** ** The read loop

    One step per blocking call or locked region of [loopRead]; the local
    state is the program point, with the frame and target channel it holds,
    and the local variable [timeout]. *)

Inductive ReadResult :=
| ReadOk (msg : Msg)
| ReadErr (err : string).

Inductive LoopReadPC :=
| LR_Read                               (* conn.conn.ReadMessage *)
| LR_CheckDrop (msg : Msg)              (* conn.drop[linkID], read-locked *)
| LR_Lookup (msg : Msg)                 (* conn.read[linkID], read-locked *)
| LR_Select (msg : Msg) (ch : chan_ref) (* the select *)
| LR_Returned.

Record LoopRead := mkLoopRead {
  lr_pc : LoopReadPC;
  lr_timeout : Z
}.

Inductive LoopReadEvent :=
| EvReadMessage (r : ReadResult)  (* ReadMessage returned r *)
| EvRLocked                       (* the read lock was granted *)
| EvSendCase                      (* case ch <- msg *)
| EvAfterCase (now : Time)        (* case <-time.After(ReadTimeout); now = time.Now() *)
| EvDoneCase.                     (* case <-conn.ctx.Done() *)

(** The test [loopRead] applies to a read error. *)
Definition is_io_timeout (err : string) : bool :=
  strings.Contains err "i/o timeout".

Definition loopRead_step (e : LoopReadEvent) (c : Conn) (s : LoopRead)
  : option (Conn * LoopRead) :=
  let timeout := lr_timeout s in
  match lr_pc s, e with
  | LR_Read, EvReadMessage (ReadErr err) =>
      if is_io_timeout err then
        let timeout := int_add timeout 1 in
        if 60 <=? timeout then
          Some (loop_return (logf logging.Error "too many timeout times" [] c),
                mkLoopRead LR_Returned timeout)
        else Some (c, mkLoopRead LR_Read timeout)
      else
        Some (logf logging.Error "read message: %v" [logging.AStr err] c,
              mkLoopRead LR_Read timeout)
  | LR_Read, EvReadMessage (ReadOk msg) =>
      if is_keepalive (XType msg) then Some (c, mkLoopRead LR_Read 0)
      else
        Some (logf logging.Debug "read message %s(%s) from %s"
                [logging.AType (XType msg); logging.AStr (LinkId msg);
                 logging.AStr (From msg)] c,
              mkLoopRead (LR_CheckDrop msg) 0)
  | LR_CheckDrop msg, EvRLocked =>
      match drop c !! LinkId msg with
      | Some _ => Some (c, mkLoopRead LR_Read timeout)
      | None => Some (c, mkLoopRead (LR_Lookup msg) timeout)
      end
  | LR_Lookup msg, EvRLocked =>
      let ch := match read c !! LinkId msg with
                | Some ch => ch
                | None => unknownRead c
                end in
      Some (c, mkLoopRead (LR_Select msg ch) timeout)
  | LR_Select msg ch, EvSendCase =>
      match chan_send (Some ch) msg (chans c) with
      | Some h => Some (set_chans h c, mkLoopRead LR_Read timeout)
      | None => None
      end
  | LR_Select msg ch, EvAfterCase now =>
      let c := logf logging.Error "drop message: %s"
                 [logging.AType (XType msg)] c in
      Some (set_drop (<[LinkId msg := time.Add now time.Minute]> (drop c)) c,
            mkLoopRead LR_Read timeout)
  | LR_Select msg ch, EvDoneCase =>
      if ctx_done c then Some (loop_return c, mkLoopRead LR_Returned timeout)
      else None
  | _, _ => None
  end.

(** The loop run on its own over a sequence of events. *)
Fixpoint loopRead_run (es : list LoopReadEvent) (c : Conn) (s : LoopRead)
  : option (Conn * LoopRead) :=
  match es with
  | [] => Some (c, s)
  | e :: es =>
      match loopRead_step e c s with
      | Some (c, s) => loopRead_run es c s
      | None => None
      end
  end.

(** ** The write loop *)

Inductive LoopWritePC :=
| LW_Select               (* the select on conn.write and ctx.Done() *)
| LW_Write (msg : Msg)    (* msg.From = ...; conn.conn.WriteMessage *)
| LW_Returned.

Inductive LoopWriteEvent :=
| EvRecvCase                          (* case msg = <-conn.write *)
| EvWDoneCase                         (* case <-conn.ctx.Done() *)
| EvWriteMessage (err : option string). (* WriteMessage returned err *)

Definition loopWrite_step (e : LoopWriteEvent) (c : Conn) (pc : LoopWritePC)
  : option (Conn * LoopWritePC) :=
  match pc, e with
  | LW_Select, EvRecvCase =>
      match chan_recv (Some (write c)) (chans c) with
      | Some (msg, h) => Some (set_chans h c, LW_Write msg)
      | None => None
      end
  | LW_Select, EvWDoneCase =>
      if ctx_done c then Some (loop_return c, LW_Returned) else None
  | LW_Write msg, EvWriteMessage err =>
      let msg := set_From (ID (cfg c)) msg in
      let c := net_call (NetWriteMessage msg (WriteTimeout (cfg c)) err) c in
      match err with
      | Some e =>
          Some (logf logging.Error "write message error on %s: %v"
                  [logging.AStr (ID (cfg c)); logging.AStr e] c,
                LW_Select)
      | None => Some (c, LW_Select)
      end
  | _, _ => None
  end.

Fixpoint loopWrite_run (es : list LoopWriteEvent) (c : Conn) (pc : LoopWritePC)
  : option (Conn * LoopWritePC) :=
  match es with
  | [] => Some (c, pc)
  | e :: es =>
      match loopWrite_step e c pc with
      | Some (c, pc) => loopWrite_run es c pc
      | None => None
      end
  end.

(** ** The drop sweep

    [now k] is the reading of [time.Now()] taken when the scan visits the
    entry of [k]; Go visits the entries in an order of its own, which the
    set of collected keys does not depend on. *)

Inductive CheckDropPC :=
| CD_Sleep                      (* time.Sleep, then the read-locked scan *)
| CD_Delete (drops : list string). (* the write-locked deletes *)

Inductive CheckDropEvent :=
| EvScan (now : string -> Time)
| EvLocked.

Definition expired (now : string -> Time) (kt : string * Time) : bool :=
  time.After (now kt.1) kt.2.

Definition scan_drops (now : string -> Time) (d : gmap string Time)
  : list string :=
  (List.filter (expired now) (map_to_list d)).*1.

Definition delete_all (drops : list string) (d : gmap string Time)
  : gmap string Time :=
  fold_left (fun d id => delete id d) drops d.

Definition checkDrop_step (e : CheckDropEvent) (c : Conn) (pc : CheckDropPC)
  : option (Conn * CheckDropPC) :=
  match pc, e with
  | CD_Sleep, EvScan now => Some (c, CD_Delete (scan_drops now (drop c)))
  | CD_Delete drops, EvLocked =>
      Some (set_drop (delete_all drops (drop c)) c, CD_Sleep)
  | _, _ => None
  end.

(** One whole round of the sweep, the scan and the deletes. *)
Definition checkDrop_round (now : string -> Time) (c : Conn) : Conn :=
  set_drop (delete_all (scan_drops now (drop c)) (drop c)) c.

(** ** The link registry *)

Definition AddLink (id : string) (c : Conn) : Conn :=
  let c := logf logging.Info "add link %s" [logging.AStr id] c in
  match read c !! id with
  | Some _ => c
  | None =>
      let '(ch, h) := chan_make 10 (chans c) in
      set_chans h (set_read (<[id := ch]> (read c)) c)
  end.

(** [Reset]: the channel is looked up under the read lock, then the send
    blocks until the channel takes the message.  [None]: still blocked. *)
Definition Reset_send (ch : option chan_ref) (msg : Msg) (c : Conn)
  : option Conn :=
  match chan_send ch msg (chans c) with
  | Some h => Some (set_chans h c)
  | None => None
  end.

Definition Reset (id : string) (msg : Msg) (c : Conn) : option Conn :=
  let ch := read c !! id in
  Reset_send ch msg c.

Definition ChanRead (id : string) (c : Conn) : option chan_ref := read c !! id.

Definition ChanUnknown (c : Conn) : chan_ref := unknownRead c.

(** [Wait]: returns once the context is done. *)
Definition Wait (c : Conn) : option unit :=
  if ctx_done c then Some tt else None.

(** ** The whole connection: the shared state and its goroutines *)

Record System := mkSystem {
  sys_conn : Conn;
  sys_loopRead : LoopRead;
  sys_loopWrite : LoopWritePC;
  sys_checkDrop : CheckDropPC
}.

Inductive Goroutine := go_loopRead | go_loopWrite | go_keepalive | go_checkDrop.

Inductive NewResult :=
| New_panic (err : string) (c : Conn)   (* runtime.Assert panicked *)
| New_ok (s : System) (started : list Goroutine).

(** [New]; the two arguments after [cfg] are what the dial and the
    handshake write return. *)
Definition New (cfg : Configure) (dial_err hs_err : option string) : NewResult :=
  let '(unknownRead, h) := chan_make 1024 ∅ in
  let '(write, h) := chan_make 1024 h in
  let c := mkConn cfg None ∅ unknownRead write ∅ false h [] [] in
  match connect dial_err hs_err c with
  | (c, Some err) => New_panic err c
  | (c, None) =>
      New_ok (mkSystem c (mkLoopRead LR_Read 0) LW_Select CD_Sleep)
             [go_loopRead; go_loopWrite; go_keepalive; go_checkDrop]
  end.

(** What can happen next: a step of one of the loops, or a call from the
    code that uses the connection.  The keepalive goroutine acts on the
    shared state only through [conn.SendKeepalive()], whose source is not
    at hand; its sends, like those of any producer, are [ActEnqueue]. *)
Inductive Action :=
| ActLoopRead (e : LoopReadEvent)
| ActLoopWrite (e : LoopWriteEvent)
| ActCheckDrop (e : CheckDropEvent)
| ActAddLink (id : string)
| ActReset (id : string) (msg : Msg)
| ActConsume (ch : chan_ref)   (* a receive from ChanRead(id) or ChanUnknown() *)
| ActEnqueue (msg : Msg).      (* a send on conn.write *)

Definition with_conn (c : Conn) (s : System) : System :=
  mkSystem c (sys_loopRead s) (sys_loopWrite s) (sys_checkDrop s).

Definition step (a : Action) (s : System) : option System :=
  let c := sys_conn s in
  match a with
  | ActLoopRead e =>
      match loopRead_step e c (sys_loopRead s) with
      | Some (c, lr) => Some (mkSystem c lr (sys_loopWrite s) (sys_checkDrop s))
      | None => None
      end
  | ActLoopWrite e =>
      match loopWrite_step e c (sys_loopWrite s) with
      | Some (c, lw) => Some (mkSystem c (sys_loopRead s) lw (sys_checkDrop s))
      | None => None
      end
  | ActCheckDrop e =>
      match checkDrop_step e c (sys_checkDrop s) with
      | Some (c, cd) => Some (mkSystem c (sys_loopRead s) (sys_loopWrite s) cd)
      | None => None
      end
  | ActAddLink id => Some (with_conn (AddLink id c) s)
  | ActReset id msg =>
      match Reset id msg c with
      | Some c => Some (with_conn c s)
      | None => None
      end
  | ActConsume ch =>
      match chan_recv (Some ch) (chans c) with
      | Some (_, h) => Some (with_conn (set_chans h c) s)
      | None => None
      end
  | ActEnqueue msg =>
      match chan_send (Some (write c)) msg (chans c) with
      | Some h => Some (with_conn (set_chans h c) s)
      | None => None
      end
  end.

Fixpoint run (acts : list Action) (s : System) : option System :=
  match acts with
  | [] => Some s
  | a :: acts =>
      match step a s with
      | Some s => run acts s
      | None => None
      end
  end.

(** A state the connection built by [New cfg] can be in. *)
Definition reachable (cfg : Configure) (s : System) : Prop :=
  exists s0 started acts,
    New cfg None None = New_ok s0 started /\ run acts s0 = Some s.

(** ** Sample data *)

Definition cfg0 : Configure :=
  mkConfigure "client-1" "relay.example:6154" false [] (10 * time.Second)
              (10 * time.Second).

Definition data (link : string) (from : string) : Msg :=
  mkMsg (Msg_other 5) from "client-1" link Payload_nil.

Definition ping : Msg := mkMsg Msg_keepalive "server" "client-1" "" Payload_nil.

Definition sys0 : System :=
  match New cfg0 None None with
  | New_ok s _ => s
  | New_panic _ c => mkSystem c (mkLoopRead LR_Returned 0) LW_Returned CD_Sleep
  end.

Definition conn0 : Conn := sys_conn sys0.

(** ** Notions and sample states the properties are stated with *)

(** A sequence of failed reads, given by their error texts. *)
Definition failed_reads (errs : list string) : list LoopReadEvent :=
  List.map (fun err => EvReadMessage (ReadErr err)) errs.

Definition count_timeouts (errs : list string) : nat :=
  length (List.filter is_io_timeout errs).

(** Fifty-nine timeouts, each followed by an end-of-file error. *)
Definition mixed_errors : list string :=
  List.concat (List.repeat ["read tcp: i/o timeout"; "EOF"] 59).

(** The line [loopRead] logs for a frame it is going to route. *)
Definition logged_read (msg : Msg) (c : Conn) : Conn :=
  logf logging.Debug "read message %s(%s) from %s"
    [logging.AType (XType msg); logging.AStr (LinkId msg);
     logging.AStr (From msg)] c.

Definition suppressed0 : Conn := set_drop {["A" := 1000]} (AddLink "A" conn0).

(** The frame the loop holds at a program point. *)
Definition held_frame (pc : LoopReadPC) : option Msg :=
  match pc with
  | LR_CheckDrop m | LR_Lookup m | LR_Select m _ => Some m
  | LR_Read | LR_Returned => None
  end.

Definition loopRead_inv (s : LoopRead) : Prop :=
  (forall m, held_frame (lr_pc s) = Some m -> is_keepalive (XType m) = false) /\
  0 <= lr_timeout s <= 60 /\
  (lr_pc s <> LR_Returned -> lr_timeout s < 60).

(** A notice the caller injects with Reset. *)
Definition notice : Msg := mkMsg (Msg_other 9) "client-1" "client-1" "A" Payload_nil.

(** Link "A" registered, one frame delivered to it and not yet consumed. *)
Definition busy0 : Conn :=
  match loopRead_run [EvReadMessage (ReadOk (data "A" "peer")); EvRLocked;
                      EvRLocked; EvSendCase]
                     (AddLink "A" conn0) (mkLoopRead LR_Read 0) with
  | Some (c, _) => c
  | None => conn0
  end.

(** Two messages queued for sending. *)
Definition queued0 : Conn :=
  set_chans (<[write conn0 := mkChan 1024 [data "A" "app"; data "B" "app"]]>
               (chans conn0)) conn0.

(** The goroutines a call of New has started when it ends. *)
Definition started_by (r : NewResult) : list Goroutine :=
  match r with
  | New_ok _ started => started
  | New_panic _ _ => []
  end.

(** The network calls made by the time a call of New ends. *)
Definition net_of (r : NewResult) : list NetCall :=
  match r with
  | New_ok s _ => net (sys_conn s)
  | New_panic _ c => net c
  end.

Definition is_handshake_write (k : NetCall) : bool :=
  match k with
  | NetWriteMessage m _ _ =>
      match XType m with Msg_handshake => true | _ => false end
  | _ => false
  end.

(** The shape every reachable connection has: each registered link points
    to a channel of capacity 10 of its own, the unknown channel and the
    outbound queue are two channels of capacity 1024, and no channel holds
    more than its capacity. *)
Record conn_wf (c : Conn) : Prop := mk_conn_wf {
  wf_links : forall id ch, read c !! id = Some ch ->
    exists q, chans c !! ch = Some q /\ chan_cap q = 10%nat;
  wf_unknown : exists q, chans c !! unknownRead c = Some q /\ chan_cap q = 1024%nat;
  wf_write : exists q, chans c !! write c = Some q /\ chan_cap q = 1024%nat;
  wf_distinct : unknownRead c <> write c;
  wf_inj : forall id1 id2 ch,
    read c !! id1 = Some ch -> read c !! id2 = Some ch -> id1 = id2;
  wf_bounded : forall l q, chans c !! l = Some q ->
    (length (chan_buf q) <= chan_cap q)%nat
}.

(** The channel a frame with link ID [id] is routed to. *)
Definition target (c : Conn) (id : string) : chan_ref :=
  match read c !! id with
  | Some ch => ch
  | None => unknownRead c
  end.

(** A change of the state that leaves the registry alone and at most
    replaces the content of one channel, within its capacity. *)
Definition same_shape (c c' : Conn) : Prop :=
  read c' = read c /\ unknownRead c' = unknownRead c /\ write c' = write c /\
  (chans c' = chans c \/
   exists l q q',
     chans c !! l = Some q /\ chans c' = <[l := q']> (chans c) /\
     chan_cap q' = chan_cap q /\ (length (chan_buf q') <= chan_cap q')%nat).

(** The frame the read loop holds once it is past the drop check. *)
Definition past_check (pc : LoopReadPC) : option Msg :=
  match pc with
  | LR_Lookup m | LR_Select m _ => Some m
  | LR_Read | LR_CheckDrop _ | LR_Returned => None
  end.

(** The link of a frame that got past the drop check has no entry. *)
Definition no_entry_inv (s : System) : Prop :=
  forall m, past_check (lr_pc (sys_loopRead s)) = Some m ->
    drop (sys_conn s) !! LinkId m = None.

Definition is_checkDrop (a : Action) : bool :=
  match a with ActCheckDrop _ => true | _ => false end.

(** ** The keepalive loop

    [conn.SendKeepalive()] is declared in another file of the package; the
    loop is modelled over it.  [None]: the call has not returned yet. *)

Inductive KeepalivePC :=
| KA_Select     (* the select on tk.C and ctx.Done() *)
| KA_Returned.

Inductive KeepaliveEvent :=
| EvTick        (* case <-tk.C *)
| EvKDoneCase.  (* case <-conn.ctx.Done() *)

Definition keepalive_step (SendKeepalive : Conn -> option Conn)
  (e : KeepaliveEvent) (c : Conn) (pc : KeepalivePC)
  : option (Conn * KeepalivePC) :=
  match pc, e with
  | KA_Select, EvTick =>
      match SendKeepalive c with
      | Some c => Some (c, KA_Select)
      | None => None
      end
  | KA_Select, EvKDoneCase =>
      if ctx_done c then Some (loop_return c, KA_Returned) else None
  | _, _ => None
  end.

Fixpoint keepalive_run (SendKeepalive : Conn -> option Conn)
  (es : list KeepaliveEvent) (c : Conn) (pc : KeepalivePC)
  : option (Conn * KeepalivePC) :=
  match es with
  | [] => Some (c, pc)
  | e :: es =>
      match keepalive_step SendKeepalive e c pc with
      | Some (c, pc) => keepalive_run SendKeepalive es c pc
      | None => None
      end
  end.

(** A heartbeat sender for the examples: it puts a keepalive frame on the
    outbound queue. *)
Definition enqueue_ping (c : Conn) : option Conn :=
  match chan_send (Some (write c)) ping (chans c) with
  | Some h => Some (set_chans h c)
  | None => None
  end.

(** ** Further notions the properties are stated with *)

(** The events of the round of the read loop that delivers one frame, and
    of the rounds that deliver a sequence of frames. *)
Definition delivery (m : Msg) : list LoopReadEvent :=
  [EvReadMessage (ReadOk m); EvRLocked; EvRLocked; EvSendCase].

Definition deliveries (ms : list Msg) : list LoopReadEvent :=
  flat_map delivery ms.

(** The events of the rounds of the write loop that take one message each
    off the queue, with what each WriteMessage returns. *)
Definition write_rounds (errs : list (option string)) : list LoopWriteEvent :=
  flat_map (fun err => [EvRecvCase; EvWriteMessage err]) errs.

(** The call the write loop makes for a queued message. *)
Definition write_call (cfg : Configure) (m : Msg) (err : option string) : NetCall :=
  NetWriteMessage (set_From (ID cfg) m) (WriteTimeout cfg) err.

(** The channel the read loop holds at its select is the unknown channel or
    the one registered for the frame's link ID. *)
Definition select_target_inv (s : System) : Prop :=
  forall m ch, lr_pc (sys_loopRead s) = LR_Select m ch ->
    ch = unknownRead (sys_conn s) \/ read (sys_conn s) !! LinkId m = Some ch.

(** The sender and the timeout of the frames written so far. *)
Definition written_by (cfg : Configure) (k : NetCall) : Prop :=
  match k with
  | NetWriteMessage m timeout _ =>
      From m = ID cfg /\
      (timeout = handshake_timeout \/ timeout = WriteTimeout cfg)
  | _ => True
  end.

(** What holds of the connection once one of its two loops has returned. *)
Definition torn_down (c : Conn) : Prop :=
  ctx_done c = true /\ In NetClose (net c) /\ Wait c = Some tt.

Definition teardown_inv (cf : Configure) (s : System) : Prop :=
  cfg (sys_conn s) = cf /\
  is_Some (conn (sys_conn s)) /\
  Forall (written_by cf) (net (sys_conn s)) /\
  (lr_pc (sys_loopRead s) = LR_Returned \/ sys_loopWrite s = LW_Returned ->
   torn_down (sys_conn s)).

(** Sample states. *)

(** Link "A" registered, a frame for it timed out at the select at time
    1000: the state the connection is in, as reached from New. *)
Definition timed_out_acts : list Action :=
  [ActAddLink "A";
   ActLoopRead (EvReadMessage (ReadOk (data "A" "peer")));
   ActLoopRead EvRLocked; ActLoopRead EvRLocked;
   ActLoopRead (EvAfterCase 1000)].

Definition sys_timed_out : System :=
  match run timed_out_acts sys0 with
  | Some s => s
  | None => sys0
  end.

(** Ten frames for link "A". *)
Definition ten_frames : list Msg := List.repeat (data "A" "peer") 10.

(** What no step of the connection undoes: the configuration, the link
    handle and the two fixed channels stay, a cancelled context stays
    cancelled, a registered link stays registered with its channel, and the
    network trace and the log only grow. *)
Definition evolves (c c' : Conn) : Prop :=
  cfg c' = cfg c /\ conn c' = conn c /\
  unknownRead c' = unknownRead c /\ write c' = write c /\
  (ctx_done c = true -> ctx_done c' = true) /\
  (forall id ch, read c !! id = Some ch -> read c' !! id = Some ch) /\
  (exists ks, net c' = (net c ++ ks)%list) /\
  (exists ls, log c' = (log c ++ ls)%list).

Definition is_loopRead (a : Action) : bool :=
  match a with ActLoopRead _ => true | _ => false end.

(** Sixty reads in a row that time out, from New: the connection is dead. *)
Definition sys_dead : System :=
  match run (List.repeat (ActLoopRead (EvReadMessage (ReadErr "i/o timeout"))) 60)
            sys0 with
  | Some s => s
  | None => sys0
  end.

(** Link "A" registered and the read loop at its select with a frame for
    it; then the state after the send. *)
Definition sys_at_select : System :=
  match run [ActAddLink "A";
             ActLoopRead (EvReadMessage (ReadOk (data "A" "peer")));
             ActLoopRead EvRLocked; ActLoopRead EvRLocked] sys0 with
  | Some s => s
  | None => sys0
  end.

Definition sys_delivered : System :=
  match step (ActLoopRead EvSendCase) sys_at_select with
  | Some s => s
  | None => sys0
  end.

(** What the read loop asks of a frame to deliver it to channel [ch]. *)
Definition deliverable (c : Conn) (ch : chan_ref) (m : Msg) : Prop :=
  is_keepalive (XType m) = false /\
  drop c !! LinkId m = None /\
  target c (LinkId m) = ch.

(** A round of the sweep at time 2000000000000 on [sys_timed_out], with
    another link registered between its scan and its deletes. *)
Definition late (_ : string) : Time := 2000000000000.

Definition sys_scanned : System :=
  match step (ActCheckDrop (EvScan late)) sys_timed_out with
  | Some s => s
  | None => sys0
  end.

Definition sys_between : System :=
  match run [ActAddLink "B"] sys_scanned with
  | Some s => s
  | None => sys0
  end.

Definition sys_swept : System :=
  match step (ActCheckDrop EvLocked) sys_between with
  | Some s => s
  | None => sys0
  end.

(** Link "A" registered and its channel filled with ten frames. *)
Definition full0 : Conn :=
  match loopRead_run (deliveries ten_frames) (AddLink "A" conn0)
                     (mkLoopRead LR_Read 0) with
  | Some (c, _) => c
  | None => conn0
  end.

(** * Properties *)

Arguments is_io_timeout : simpl never.

(** ** The timeout counter of the read loop *)

Lemma int_add_small (t : Z) : 0 <= t < 60 -> int_add t 1 = t + 1.
Proof.
  intros Ht. unfold int_add, int_wrap.
  rewrite Z.mod_small; lia.
Qed.

Lemma loopRead_step_timeout (c : Conn) (t : Z) (err : string) :
  0 <= t < 60 ->
  is_io_timeout err = true ->
  loopRead_step (EvReadMessage (ReadErr err)) c (mkLoopRead LR_Read t) =
    if 60 <=? t + 1
    then Some (loop_return (logf logging.Error "too many timeout times" [] c),
               mkLoopRead LR_Returned (t + 1))
    else Some (c, mkLoopRead LR_Read (t + 1)).
Proof.
  intros Ht Herr. unfold loopRead_step. cbn [lr_pc lr_timeout].
  rewrite Herr, int_add_small by exact Ht. reflexivity.
Qed.

Lemma loopRead_step_error (c : Conn) (t : Z) (err : string) :
  is_io_timeout err = false ->
  loopRead_step (EvReadMessage (ReadErr err)) c (mkLoopRead LR_Read t) =
    Some (logf logging.Error "read message: %v" [logging.AStr err] c,
          mkLoopRead LR_Read t).
Proof.
  intros Herr. unfold loopRead_step. cbn [lr_pc lr_timeout].
  rewrite Herr. reflexivity.
Qed.

Lemma loopRead_step_ok (c : Conn) (t : Z) (msg : Msg) :
  loopRead_step (EvReadMessage (ReadOk msg)) c (mkLoopRead LR_Read t) =
    if is_keepalive (XType msg) then Some (c, mkLoopRead LR_Read 0)
    else Some (logf logging.Debug "read message %s(%s) from %s"
                 [logging.AType (XType msg); logging.AStr (LinkId msg);
                  logging.AStr (From msg)] c,
               mkLoopRead (LR_CheckDrop msg) 0).
Proof. reflexivity. Qed.

Lemma loop_return_done (c : Conn) : ctx_done (loop_return c) = true.
Proof. unfold loop_return, close, cancel. destruct c as [? [?|]]; reflexivity. Qed.

Lemma loop_return_closed (c : Conn) :
  is_Some (conn c) -> net (loop_return c) = (net c ++ [NetClose])%list.
Proof. intros [cn Hcn]. unfold loop_return, close. cbn. rewrite Hcn. reflexivity. Qed.

(** C3. In the read loop, a read that fails with a timeout adds one to the
    counter; when that makes 60 the loop returns, its deferred calls
    cancelling the context and closing the link; a read that succeeds sets
    the counter to zero and the loop goes on; a read that fails otherwise
    is logged and the loop goes on. *)
Theorem loopRead_timeout_counter (c : Conn) (t : Z) :
  0 <= t < 60 ->
  (forall err, is_io_timeout err = true ->
     (t + 1 < 60 ->
      loopRead_step (EvReadMessage (ReadErr err)) c (mkLoopRead LR_Read t) =
        Some (c, mkLoopRead LR_Read (t + 1))) /\
     (t + 1 = 60 ->
      exists c',
        loopRead_step (EvReadMessage (ReadErr err)) c (mkLoopRead LR_Read t) =
          Some (c', mkLoopRead LR_Returned 60) /\
        ctx_done c' = true /\
        (is_Some (conn c) -> net c' = (net c ++ [NetClose])%list))) /\
  (forall msg, exists c' pc,
     loopRead_step (EvReadMessage (ReadOk msg)) c (mkLoopRead LR_Read t) =
       Some (c', mkLoopRead pc 0) /\ pc <> LR_Returned) /\
  (forall err, is_io_timeout err = false ->
     exists c',
       loopRead_step (EvReadMessage (ReadErr err)) c (mkLoopRead LR_Read t) =
         Some (c', mkLoopRead LR_Read t) /\
       ctx_done c' = ctx_done c /\ net c' = net c).
Proof.
  intros Ht. split; [|split].
  - intros err Herr. rewrite (loopRead_step_timeout c t err Ht Herr). split.
    + intros Hlt. destruct (Z.leb_spec 60 (t + 1)); [lia | reflexivity].
    + intros Heq. rewrite Heq. cbn [Z.leb Z.compare Pos.compare Pos.compare_cont].
      eexists. split; [reflexivity|]. split.
      * apply loop_return_done.
      * intros Hc. rewrite loop_return_closed; [reflexivity | exact Hc].
  - intros msg. rewrite loopRead_step_ok.
    destruct (is_keepalive (XType msg)); do 2 eexists; (split; [reflexivity | discriminate]).
  - intros err Herr. rewrite (loopRead_step_error c t err Herr).
    eexists. split; [reflexivity|]. split; reflexivity.
Qed.

Lemma loopRead_timeout_counter_witness :
  loopRead_step (EvReadMessage (ReadErr "read tcp 10.0.0.2:6154: i/o timeout"))
                conn0 (mkLoopRead LR_Read 7) =
    Some (conn0, mkLoopRead LR_Read 8).
Proof.
  destruct (loopRead_timeout_counter conn0 7 ltac:(lia)) as [Hto _].
  apply (Hto "read tcp 10.0.0.2:6154: i/o timeout"); [reflexivity | lia].
Defined.

(** ** Timeouts interleaved with other read errors *)

Lemma loopRead_run_app (es1 es2 : list LoopReadEvent) (c : Conn) (s : LoopRead) :
  loopRead_run (es1 ++ es2) c s =
    match loopRead_run es1 c s with
    | Some (c', s') => loopRead_run es2 c' s'
    | None => None
    end.
Proof.
  revert c s. induction es1 as [|e es1 IH]; intros c s; cbn [loopRead_run app].
  - reflexivity.
  - destruct (loopRead_step e c s) as [[c' s']|]; [apply IH | reflexivity].
Qed.

Lemma failed_reads_count (errs : list string) (c : Conn) (t : Z) :
  0 <= t ->
  t + Z.of_nat (count_timeouts errs) < 60 ->
  exists c',
    loopRead_run (failed_reads errs) c (mkLoopRead LR_Read t) =
      Some (c', mkLoopRead LR_Read (t + Z.of_nat (count_timeouts errs))) /\
    ctx_done c' = ctx_done c.
Proof.
  revert c t. induction errs as [|err errs IH]; intros c t Ht Hlt.
  - exists c. cbn. rewrite Z.add_0_r. split; reflexivity.
  - unfold count_timeouts in *. cbn [List.filter failed_reads List.map loopRead_run] in *.
    destruct (is_io_timeout err) eqn:Herr.
    + cbn [length] in Hlt |- *.
      rewrite (loopRead_step_timeout c t err) by (first [lia | exact Herr]).
      destruct (Z.leb_spec 60 (t + 1)); [lia|].
      destruct (IH c (t + 1)) as (c' & Hrun & Hdone); [lia | lia |].
      exists c'. split; [| exact Hdone].
      fold (failed_reads errs). rewrite Hrun. do 3 f_equal. lia.
    + rewrite (loopRead_step_error c t err Herr).
      destruct (IH (logf logging.Error "read message: %v" [logging.AStr err] c) t)
        as (c' & Hrun & Hdone); [lia | lia |].
      exists c'. split; [exact Hrun | exact Hdone].
Qed.

(** C10. A read error other than a timeout leaves the counter as it is, so
    after any sequence of failed reads the counter is the number of timeouts
    among them, whatever other errors came in between; once 59 timeouts
    have been counted in such a sequence, the next timeout ends the loop. *)
Theorem timeouts_need_not_be_consecutive (c : Conn) (errs : list string) :
  (count_timeouts errs < 60)%nat ->
  (forall t err, is_io_timeout err = false ->
     exists c',
       loopRead_step (EvReadMessage (ReadErr err)) c (mkLoopRead LR_Read t) =
         Some (c', mkLoopRead LR_Read t)) /\
  (exists c',
     loopRead_run (failed_reads errs) c (mkLoopRead LR_Read 0) =
       Some (c', mkLoopRead LR_Read (Z.of_nat (count_timeouts errs)))) /\
  (count_timeouts errs = 59%nat ->
   forall err, is_io_timeout err = true ->
     exists c',
       loopRead_run (failed_reads (errs ++ [err])) c (mkLoopRead LR_Read 0) =
         Some (c', mkLoopRead LR_Returned 60) /\
       ctx_done c' = true).
Proof.
  intros Hlt.
  destruct (failed_reads_count errs c 0) as (c1 & Hrun & _); [lia | lia |].
  rewrite Z.add_0_l in Hrun.
  split; [|split].
  - intros t err Herr. rewrite (loopRead_step_error c t err Herr). eauto.
  - exists c1. exact Hrun.
  - intros H59 err Herr. unfold failed_reads in *.
    rewrite List.map_app, loopRead_run_app, Hrun, H59.
    cbn [List.map loopRead_run].
    rewrite (loopRead_step_timeout c1 _ err) by (first [lia | exact Herr]).
    cbn. eexists. split; [reflexivity | apply loop_return_done].
Qed.

Lemma timeouts_need_not_be_consecutive_witness :
  exists c',
    loopRead_run (failed_reads (mixed_errors ++ ["read tcp: i/o timeout"]))
                 conn0 (mkLoopRead LR_Read 0) =
      Some (c', mkLoopRead LR_Returned 60) /\
    ctx_done c' = true.
Proof.
  destruct (timeouts_need_not_be_consecutive conn0 mixed_errors) as (_ & _ & H).
  - vm_compute. lia.
  - apply H; reflexivity.
Defined.

(** ** Routing of a frame *)

Lemma chan_send_room (l : chan_ref) (q : Chan) (m : Msg) (h : gmap chan_ref Chan) :
  h !! l = Some q ->
  (length (chan_buf q) < chan_cap q)%nat ->
  chan_send (Some l) m h = Some (<[l := chan_push q m]> h).
Proof.
  intros Hq Hroom. unfold chan_send. rewrite Hq.
  destruct (Nat.ltb_spec (length (chan_buf q)) (chan_cap q)); [reflexivity | lia].
Qed.

Lemma chan_send_inv (ch : option chan_ref) (m : Msg) (h h' : gmap chan_ref Chan) :
  chan_send ch m h = Some h' ->
  exists l q,
    ch = Some l /\ h !! l = Some q /\
    (length (chan_buf q) < chan_cap q)%nat /\
    h' = <[l := chan_push q m]> h.
Proof.
  unfold chan_send. destruct ch as [l|]; [|discriminate].
  destruct (h !! l) as [q|] eqn:Hq; [|discriminate].
  destruct (Nat.ltb_spec (length (chan_buf q)) (chan_cap q)); [|discriminate].
  intros [= <-]. exists l, q. auto.
Qed.

Lemma pending_push (l : chan_ref) (q : Chan) (m : Msg) (h : gmap chan_ref Chan) :
  h !! l = Some q ->
  pending (<[l := chan_push q m]> h) l = (pending h l ++ [m])%list.
Proof.
  intros Hq. unfold pending. rewrite lookup_insert_eq, Hq. reflexivity.
Qed.

Lemma loopRead_reaches_select (c : Conn) (t : Z) (msg : Msg) :
  is_keepalive (XType msg) = false ->
  drop c !! LinkId msg = None ->
  exists ch,
    match read c !! LinkId msg with
    | Some registered => ch = registered
    | None => ch = unknownRead c
    end /\
    loopRead_run [EvReadMessage (ReadOk msg); EvRLocked; EvRLocked]
                 c (mkLoopRead LR_Read t) =
      Some (logged_read msg c, mkLoopRead (LR_Select msg ch) 0).
Proof.
  intros Hka Hdrop.
  exists (match read c !! LinkId msg with
          | Some ch => ch
          | None => unknownRead c
          end).
  split; [destruct (read c !! LinkId msg); reflexivity|].
  cbn [loopRead_run]. rewrite loopRead_step_ok, Hka.
  unfold loopRead_step. cbn [lr_pc lr_timeout drop logged_read logf].
  rewrite Hdrop. reflexivity.
Qed.

(** C1. A frame that is read, is not a keepalive and whose link ID has no
    entry in the drop map reaches the select with the channel registered
    for its link ID, or with the unknown channel when none is registered.
    When that channel has room the send goes through and the frame becomes
    the last message of that channel, no other channel changing.  The frame
    leaves the select otherwise only by the timeout, logged and recorded in
    the drop map, or by the cancellation of the context. *)
Theorem loopRead_routes_frame (c : Conn) (t : Z) (msg : Msg) :
  is_keepalive (XType msg) = false ->
  drop c !! LinkId msg = None ->
  exists ch,
    match read c !! LinkId msg with
    | Some registered => ch = registered
    | None => ch = unknownRead c
    end /\
    loopRead_run [EvReadMessage (ReadOk msg); EvRLocked; EvRLocked]
                 c (mkLoopRead LR_Read t) =
      Some (logged_read msg c, mkLoopRead (LR_Select msg ch) 0) /\
    (forall q, chans c !! ch = Some q ->
       (length (chan_buf q) < chan_cap q)%nat ->
       exists c',
         loopRead_step EvSendCase (logged_read msg c)
                       (mkLoopRead (LR_Select msg ch) 0) =
           Some (c', mkLoopRead LR_Read 0) /\
         pending (chans c') ch = (pending (chans c) ch ++ [msg])%list /\
         (forall l, l <> ch -> chans c' !! l = chans c !! l)) /\
    (forall e c' s',
       loopRead_step e (logged_read msg c) (mkLoopRead (LR_Select msg ch) 0) =
         Some (c', s') ->
       (e = EvSendCase /\
        pending (chans c') ch = (pending (chans c) ch ++ [msg])%list) \/
       (exists now, e = EvAfterCase now /\
          drop c' !! LinkId msg = Some (time.Add now time.Minute) /\
          log c' = (log (logged_read msg c) ++
                    [logging.mkEntry logging.Error "drop message: %s"
                       [logging.AType (XType msg)]])%list) \/
       (e = EvDoneCase /\ ctx_done c = true)).
Proof.
  intros Hka Hdrop.
  destruct (loopRead_reaches_select c t msg Hka Hdrop) as (ch & Hch & Hrun).
  exists ch. split; [exact Hch|]. clear Hch.
  split; [exact Hrun|]. clear Hrun.
  split.
  - intros q Hq Hroom. unfold loopRead_step. cbn [lr_pc lr_timeout].
    change (chans (logged_read msg c)) with (chans c).
    rewrite (chan_send_room ch q msg (chans c) Hq Hroom).
    eexists. split; [reflexivity|]. split.
    + cbn [chans set_chans]. apply pending_push, Hq.
    + intros l Hl. cbn [chans set_chans]. apply lookup_insert_ne. congruence.
  - intros e c' s'. unfold loopRead_step. cbn [lr_pc lr_timeout].
    change (chans (logged_read msg c)) with (chans c).
    change (ctx_done (logged_read msg c)) with (ctx_done c).
    destruct e as [r| | |now|]; try discriminate.
    + destruct (chan_send (Some ch) msg (chans c)) as [h|] eqn:Hsend; [|discriminate].
      intros [= <- <-]. left. split; [reflexivity|].
      apply chan_send_inv in Hsend as (l & q & [= <-] & Hq & _ & ->).
      cbn [chans set_chans]. apply pending_push, Hq.
    + intros [= <- <-]. right. left. exists now. split; [reflexivity|].
      split; [apply lookup_insert_eq | reflexivity].
    + destruct (ctx_done c) eqn:Hdone; [|discriminate].
      intros _. right. right. split; reflexivity.
Qed.

Lemma loopRead_routes_frame_witness :
  exists ch,
    match read (AddLink "A" conn0) !! LinkId (data "A" "peer") with
    | Some registered => ch = registered
    | None => ch = unknownRead (AddLink "A" conn0)
    end /\
    loopRead_run [EvReadMessage (ReadOk (data "A" "peer")); EvRLocked; EvRLocked]
                 (AddLink "A" conn0) (mkLoopRead LR_Read 0) =
      Some (logged_read (data "A" "peer") (AddLink "A" conn0),
            mkLoopRead (LR_Select (data "A" "peer") ch) 0).
Proof.
  destruct (loopRead_routes_frame (AddLink "A" conn0) 0 (data "A" "peer"))
    as (ch & Hch & Hrun & _); [reflexivity | reflexivity |].
  exists ch. split; [exact Hch | exact Hrun].
Defined.

(** ** Suppression *)

(** C2. A frame whose link ID has an entry in the drop map is discarded
    with no send attempted: a keepalive at the read, any other frame at the
    drop check, from which the loop goes back to reading with the state
    untouched.  When the timeout case of the select is taken, the frame's
    link ID gets the expiry one minute after the current time, the frame is
    in no channel and the loop goes back to reading. *)
Theorem loopRead_suppression (c : Conn) (t : Z) (msg : Msg) :
  (forall expiry, drop c !! LinkId msg = Some expiry ->
     loopRead_step EvRLocked c (mkLoopRead (LR_CheckDrop msg) t) =
       Some (c, mkLoopRead LR_Read t) /\
     exists es c',
       loopRead_run (EvReadMessage (ReadOk msg) :: es) c (mkLoopRead LR_Read t) =
         Some (c', mkLoopRead LR_Read 0) /\
       es = (if is_keepalive (XType msg) then [] else [EvRLocked]) /\
       chans c' = chans c /\ drop c' = drop c) /\
  (forall ch now,
     exists c',
       loopRead_step (EvAfterCase now) c (mkLoopRead (LR_Select msg ch) t) =
         Some (c', mkLoopRead LR_Read t) /\
       drop c' = <[LinkId msg := now + 60 * 1000000000]> (drop c) /\
       chans c' = chans c).
Proof.
  split.
  - intros expiry Hdrop. split.
    + unfold loopRead_step. cbn [lr_pc lr_timeout]. rewrite Hdrop. reflexivity.
    + destruct (is_keepalive (XType msg)) eqn:Hka.
      * exists [], c. cbn [loopRead_run]. rewrite loopRead_step_ok, Hka.
        repeat split; reflexivity.
      * exists [EvRLocked], (logged_read msg c). cbn [loopRead_run].
        rewrite loopRead_step_ok, Hka.
        unfold loopRead_step. cbn [lr_pc lr_timeout drop logged_read logf].
        rewrite Hdrop. repeat split; reflexivity.
  - intros ch now. eexists. split; [reflexivity|]. split; reflexivity.
Qed.

Lemma loopRead_suppression_witness :
  loopRead_step EvRLocked suppressed0
                (mkLoopRead (LR_CheckDrop (data "A" "peer")) 0) =
    Some (suppressed0, mkLoopRead LR_Read 0).
Proof.
  destruct (loopRead_suppression suppressed0 0 (data "A" "peer")) as [H _].
  apply (H 1000). reflexivity.
Defined.

(** ** What holds of the read loop in every reachable state *)

Lemma loopRead_step_inv (e : LoopReadEvent) (c c' : Conn) (s s' : LoopRead) :
  loopRead_inv s ->
  loopRead_step e c s = Some (c', s') ->
  loopRead_inv s'.
Proof.
  intros (Hm & Ht & Hlt). destruct s as [pc t]. cbn [lr_pc lr_timeout] in *.
  unfold loopRead_step, loopRead_inv. cbn [lr_pc lr_timeout].
  destruct pc as [|m|m|m ch|]; destruct e as [[m'|err]| | |now|];
    try discriminate.
  - destruct (is_keepalive (XType m')) eqn:Hka; intros [= <- <-];
      cbn [lr_pc lr_timeout held_frame]; (split; [|split]); try lia.
    + discriminate.
    + intros m0 [= <-]. exact Hka.
  - destruct (is_io_timeout err).
    + assert (Hlt' : t < 60) by (apply Hlt; discriminate).
      rewrite int_add_small by lia.
      destruct (Z.leb_spec 60 (t + 1)); intros [= <- <-];
        cbn [lr_pc lr_timeout held_frame]; (split; [|split]);
        try lia; try discriminate. congruence.
    + intros [= <- <-]. cbn [lr_pc lr_timeout held_frame].
      split; [discriminate|]. split; [lia | exact Hlt].
  - assert (Hlt' : t < 60) by (apply Hlt; discriminate).
    destruct (drop c !! LinkId m); intros [= <- <-];
      cbn [lr_pc lr_timeout held_frame]; (split; [|split]);
      try lia; try discriminate.
    intros m0 [= <-]. apply Hm. reflexivity.
  - assert (Hlt' : t < 60) by (apply Hlt; discriminate).
    intros [= <- <-]. cbn [lr_pc lr_timeout held_frame].
    split; [|split]; try lia. intros m0 [= <-]. apply Hm. reflexivity.
  - assert (Hlt' : t < 60) by (apply Hlt; discriminate).
    destruct (chan_send (Some ch) m (chans c)); [|discriminate].
    intros [= <- <-]. cbn [lr_pc lr_timeout held_frame].
    split; [discriminate|]. split; lia.
  - assert (Hlt' : t < 60) by (apply Hlt; discriminate).
    intros [= <- <-]. cbn [lr_pc lr_timeout held_frame].
    split; [discriminate|]. split; lia.
  - destruct (ctx_done c); [|discriminate].
    intros [= <- <-]. cbn [lr_pc lr_timeout held_frame].
    split; [discriminate|]. split; [lia | congruence].
Qed.

Lemma step_loopRead_inv (a : Action) (s s' : System) :
  loopRead_inv (sys_loopRead s) ->
  step a s = Some s' ->
  loopRead_inv (sys_loopRead s').
Proof.
  intros Hinv. unfold step. destruct a as [e|e|e|id|id m|ch|m].
  - destruct (loopRead_step e (sys_conn s) (sys_loopRead s)) as [[c lr]|] eqn:Hs;
      [|discriminate].
    intros [= <-]. cbn. eapply loopRead_step_inv; eassumption.
  - destruct (loopWrite_step e (sys_conn s) (sys_loopWrite s)) as [[c lw]|];
      [|discriminate].
    intros [= <-]. exact Hinv.
  - destruct (checkDrop_step e (sys_conn s) (sys_checkDrop s)) as [[c cd]|];
      [|discriminate].
    intros [= <-]. exact Hinv.
  - intros [= <-]. exact Hinv.
  - destruct (Reset id m (sys_conn s)); [|discriminate].
    intros [= <-]. exact Hinv.
  - destruct (chan_recv (Some ch) (chans (sys_conn s))) as [[? h]|]; [|discriminate].
    intros [= <-]. exact Hinv.
  - destruct (chan_send (Some (write (sys_conn s))) m (chans (sys_conn s)));
      [|discriminate].
    intros [= <-]. exact Hinv.
Qed.

Lemma run_loopRead_inv (acts : list Action) (s s' : System) :
  loopRead_inv (sys_loopRead s) ->
  run acts s = Some s' ->
  loopRead_inv (sys_loopRead s').
Proof.
  revert s. induction acts as [|a acts IH]; intros s Hinv; cbn [run].
  - intros [= <-]. exact Hinv.
  - destruct (step a s) as [s1|] eqn:Hstep; [|discriminate].
    apply IH. eapply step_loopRead_inv; eassumption.
Qed.

Lemma reachable_loopRead_inv (cfg : Configure) (s : System) :
  reachable cfg s -> loopRead_inv (sys_loopRead s).
Proof.
  intros (s0 & started & acts & Hnew & Hrun).
  eapply run_loopRead_inv; [|exact Hrun].
  unfold New in Hnew. cbn in Hnew. injection Hnew as <- _.
  unfold loopRead_inv. cbn [sys_loopRead lr_pc lr_timeout held_frame].
  split; [discriminate|]. split; [lia | intros _; lia].
Qed.

Lemma reachable_timeout_range (cfg : Configure) (s : System) :
  reachable cfg s ->
  lr_pc (sys_loopRead s) <> LR_Returned ->
  0 <= lr_timeout (sys_loopRead s) < 60.
Proof.
  intros Hr Hpc. destruct (reachable_loopRead_inv cfg s Hr) as (_ & Ht & Hlt).
  specialize (Hlt Hpc). lia.
Qed.

(** ** Keepalive frames *)

Lemma loop_return_chans (c : Conn) : chans (loop_return c) = chans c.
Proof. unfold loop_return, close, cancel. destruct c as [? [?|]]; reflexivity. Qed.

(** What one step of the read loop does to the channels: nothing, or one
    message, the frame the loop holds, is put at the end of one channel. *)
Lemma loopRead_step_chans (e : LoopReadEvent) (c c' : Conn) (s s' : LoopRead) :
  loopRead_step e c s = Some (c', s') ->
  forall l,
    chans c' !! l = chans c !! l \/
    exists q m,
      held_frame (lr_pc s) = Some m /\
      chans c !! l = Some q /\ chans c' !! l = Some (chan_push q m).
Proof.
  destruct s as [pc t]. unfold loopRead_step. cbn [lr_pc lr_timeout].
  destruct pc as [|m|m|m ch|]; destruct e as [[m'|err]| | |now|];
    try discriminate.
  - destruct (is_keepalive (XType m')); intros [= <- <-] l; left; reflexivity.
  - destruct (is_io_timeout err); [destruct (60 <=? int_add t 1)|];
      intros [= <- <-] l; left; [|reflexivity..].
    rewrite loop_return_chans. reflexivity.
  - destruct (drop c !! LinkId m); intros [= <- <-] l; left; reflexivity.
  - intros [= <- <-] l; left; reflexivity.
  - destruct (chan_send (Some ch) m (chans c)) as [h|] eqn:Hsend; [|discriminate].
    intros [= <- <-] l.
    apply chan_send_inv in Hsend as (l0 & q & [= <-] & Hq & _ & ->).
    cbn [chans set_chans]. destruct (decide (l = ch)) as [->|Hne].
    + right. exists q, m. rewrite lookup_insert_eq. auto.
    + left. apply lookup_insert_ne. congruence.
  - intros [= <- <-] l; left; reflexivity.
  - destruct (ctx_done c); [|discriminate].
    intros [= <- <-] l; left. rewrite loop_return_chans. reflexivity.
Qed.

(** C4. In every state the connection can reach, a step of the read loop
    leaves each channel, per-link or unknown, as it was or appends to it one
    frame that is not a keepalive; and the step that reads a keepalive
    changes nothing and goes straight back to reading, holding no frame. *)
Theorem keepalive_never_delivered
  (cfg : Configure) (s s' : System) (e : LoopReadEvent) :
  reachable cfg s ->
  step (ActLoopRead e) s = Some s' ->
  (forall l,
     chans (sys_conn s') !! l = chans (sys_conn s) !! l \/
     exists q m,
       chans (sys_conn s) !! l = Some q /\
       chans (sys_conn s') !! l = Some (chan_push q m) /\
       is_keepalive (XType m) = false) /\
  (forall m, e = EvReadMessage (ReadOk m) ->
     is_keepalive (XType m) = true ->
     sys_conn s' = sys_conn s /\
     lr_pc (sys_loopRead s') = LR_Read /\
     held_frame (lr_pc (sys_loopRead s')) = None).
Proof.
  intros Hreach Hstep.
  destruct (reachable_loopRead_inv cfg s Hreach) as (Hheld & _).
  unfold step in Hstep.
  destruct (loopRead_step e (sys_conn s) (sys_loopRead s)) as [[c lr]|] eqn:Hs;
    [|discriminate].
  injection Hstep as <-. cbn [sys_conn sys_loopRead]. split.
  - intros l. destruct (loopRead_step_chans _ _ _ _ _ Hs l) as [Heq|(q & m & Hm & Hq & Hq')].
    + left. exact Heq.
    + right. exists q, m. auto.
  - intros m -> Hka. revert Hs. destruct (sys_loopRead s) as [pc t].
    unfold loopRead_step. cbn [lr_pc lr_timeout].
    destruct pc; try discriminate.
    rewrite Hka. intros [= <- <-]. auto.
Qed.

Lemma keepalive_never_delivered_witness :
  sys_conn (mkSystem conn0 (mkLoopRead LR_Read 0) LW_Select CD_Sleep) = sys_conn sys0 /\
  lr_pc (sys_loopRead (mkSystem conn0 (mkLoopRead LR_Read 0) LW_Select CD_Sleep)) = LR_Read /\
  held_frame (lr_pc (sys_loopRead (mkSystem conn0 (mkLoopRead LR_Read 0) LW_Select CD_Sleep))) = None.
Proof.
  refine (proj2 (keepalive_never_delivered cfg0 sys0 _
                   (EvReadMessage (ReadOk ping)) _ _) ping eq_refl eq_refl).
  - exists sys0, [go_loopRead; go_loopWrite; go_keepalive; go_checkDrop], [].
    split; reflexivity.
  - reflexivity.
Defined.

(** ** The drop sweep *)

Lemma delete_all_lookup (drops : list string) (d : gmap string Time) (k : string) :
  delete_all drops d !! k = if decide (k ∈ drops) then None else d !! k.
Proof.
  unfold delete_all. revert d. induction drops as [|id drops IH]; intros d; cbn [fold_left].
  - destruct (decide (k ∈ [])) as [Hin|_]; [|reflexivity].
    apply elem_of_nil in Hin. contradiction.
  - rewrite IH. destruct (decide (k ∈ drops)) as [Hin|Hnin].
    + rewrite decide_True by (apply elem_of_cons; auto). reflexivity.
    + destruct (decide (k = id)) as [->|Hne].
      * rewrite decide_True by (apply elem_of_cons; auto). apply lookup_delete_eq.
      * rewrite decide_False by (rewrite elem_of_cons; tauto).
        apply lookup_delete_ne. congruence.
Qed.

Lemma scan_drops_spec (now : string -> Time) (d : gmap string Time) (k : string) :
  k ∈ scan_drops now d <->
  exists t, d !! k = Some t /\ time.After (now k) t = true.
Proof.
  unfold scan_drops. rewrite list_elem_of_fmap. split.
  - intros ([k' t] & -> & Hin). apply list_elem_of_In, filter_In in Hin as [Hin Hexp].
    apply list_elem_of_In, elem_of_map_to_list in Hin. exists t. auto.
  - intros (t & Hk & Hexp). exists (k, t). split; [reflexivity|].
    apply list_elem_of_In, filter_In. split; [|exact Hexp].
    apply list_elem_of_In, elem_of_map_to_list. exact Hk.
Qed.

Lemma checkDrop_round_steps (now : string -> Time) (c : Conn) :
  match checkDrop_step (EvScan now) c CD_Sleep with
  | Some (c1, pc1) => checkDrop_step EvLocked c1 pc1
  | None => None
  end = Some (checkDrop_round now c, CD_Sleep).
Proof. reflexivity. Qed.

Lemma checkDrop_round_lookup (now : string -> Time) (c : Conn) (k : string) :
  drop (checkDrop_round now c) !! k =
    match drop c !! k with
    | Some t => if time.After (now k) t then None else Some t
    | None => None
    end.
Proof.
  unfold checkDrop_round. cbn [drop set_drop]. rewrite delete_all_lookup.
  destruct (decide (k ∈ scan_drops now (drop c))) as [Hin|Hnin].
  - apply scan_drops_spec in Hin as (t & -> & ->). reflexivity.
  - destruct (drop c !! k) as [t|] eqn:Hk; [|reflexivity].
    destruct (time.After (now k) t) eqn:Hexp; [|reflexivity].
    exfalso. apply Hnin, scan_drops_spec. eauto.
Qed.

(** Against C5 as worded: the frame arrives after the expiry of its link's
    entry, but before a sweep has removed the entry: it is discarded at the drop check, which
    tests only whether the link ID has an entry. *)
Lemma expired_entry_still_suppresses :
  ~ (forall (c : Conn) (msg : Msg) (expiry now : Time),
       is_keepalive (XType msg) = false ->
       drop c !! LinkId msg = Some expiry ->
       time.After now expiry = true ->
       exists c' ch,
         loopRead_run [EvReadMessage (ReadOk msg); EvRLocked; EvRLocked]
                      c (mkLoopRead LR_Read 0) =
           Some (c', mkLoopRead (LR_Select msg ch) 0)) /\
  loopRead_run [EvReadMessage (ReadOk (data "A" "peer")); EvRLocked]
               suppressed0 (mkLoopRead LR_Read 0) =
    Some (logged_read (data "A" "peer") suppressed0, mkLoopRead LR_Read 0).
Proof.
  split; [|reflexivity].
  intros H.
  destruct (H suppressed0 (data "A" "peer") 1000 1001 eq_refl eq_refl eq_refl)
    as (c' & ch & Hrun).
  vm_compute in Hrun. discriminate Hrun.
Qed.

(** C5, as the code has it. A round of the sweep removes from the drop map
    the entries whose expiry lies before the time read when the entry is
    visited, and keeps every other entry as it is.  Consequently, once a
    round has run after the expiry of a link's entry, a frame for that link
    that is not a keepalive gets past the drop check and reaches the select
    with the link's channel, or the unknown channel. *)
Theorem checkDrop_removes_expired (c : Conn) (now : string -> Time) :
  (forall k,
     drop (checkDrop_round now c) !! k =
       match drop c !! k with
       | Some expiry => if expiry <? now k then None else Some expiry
       | None => None
       end) /\
  (forall msg expiry t,
     drop c !! LinkId msg = Some expiry ->
     expiry < now (LinkId msg) ->
     is_keepalive (XType msg) = false ->
     drop (checkDrop_round now c) !! LinkId msg = None /\
     exists ch,
       match read c !! LinkId msg with
       | Some registered => ch = registered
       | None => ch = unknownRead c
       end /\
       loopRead_run [EvReadMessage (ReadOk msg); EvRLocked; EvRLocked]
                    (checkDrop_round now c) (mkLoopRead LR_Read t) =
         Some (logged_read msg (checkDrop_round now c),
               mkLoopRead (LR_Select msg ch) 0)).
Proof.
  split.
  - intros k. apply checkDrop_round_lookup.
  - intros msg expiry t Hk Hexp Hka.
    assert (Hgone : drop (checkDrop_round now c) !! LinkId msg = None).
    { rewrite checkDrop_round_lookup, Hk. unfold time.After.
      destruct (Z.ltb_spec expiry (now (LinkId msg))); [reflexivity | lia]. }
    split; [exact Hgone|].
    destruct (loopRead_reaches_select (checkDrop_round now c) t msg Hka Hgone)
      as (ch & Hch & Hrun).
    exists ch. split; [exact Hch | exact Hrun].
Qed.

Lemma checkDrop_removes_expired_witness :
  drop (checkDrop_round (fun _ => 1001) suppressed0) !! LinkId (data "A" "peer") = None.
Proof.
  destruct (checkDrop_removes_expired suppressed0 (fun _ => 1001)) as [_ H].
  apply (H (data "A" "peer") 1000 0); [reflexivity | lia | reflexivity].
Defined.

(** ** The link registry *)

Lemma chan_make_fresh (n : nat) (h : gmap chan_ref Chan) :
  h !! (chan_make n h).1 = None /\
  (chan_make n h).2 = <[(chan_make n h).1 := mkChan n []]> h.
Proof.
  unfold chan_make. cbn [fst snd]. split; [|reflexivity].
  apply not_elem_of_dom, is_fresh.
Qed.

Lemma AddLink_absent (id : string) (c : Conn) :
  read c !! id = None ->
  AddLink id c =
    set_chans (chan_make 10 (chans c)).2
      (set_read (<[id := (chan_make 10 (chans c)).1]> (read c))
         (logf logging.Info "add link %s" [logging.AStr id] c)).
Proof.
  intros Hid. unfold AddLink. cbn [read logf]. rewrite Hid. reflexivity.
Qed.

Lemma AddLink_present (id : string) (c : Conn) :
  is_Some (read c !! id) ->
  AddLink id c = logf logging.Info "add link %s" [logging.AStr id] c.
Proof.
  intros [ch Hid]. unfold AddLink. cbn [read logf]. rewrite Hid. reflexivity.
Qed.

Lemma AddLink_registers (id : string) (c : Conn) :
  is_Some (read (AddLink id c) !! id).
Proof.
  destruct (read c !! id) as [ch|] eqn:Hid.
  - rewrite AddLink_present by eauto. cbn [read logf]. eauto.
  - rewrite AddLink_absent by exact Hid. cbn [read set_chans set_read].
    rewrite lookup_insert_eq. eauto.
Qed.

(** C7. When no channel is registered for the ID, AddLink registers a new
    channel of capacity 10, empty, and touches no other channel or entry;
    when one is registered, the registry and the channels, with what they
    buffer, stay as they are; a second AddLink of the same ID changes
    nothing but the log, in which it writes its line. *)
Theorem AddLink_idempotent (id : string) (c : Conn) :
  (read c !! id = None ->
   exists ch,
     chans c !! ch = None /\
     read (AddLink id c) = <[id := ch]> (read c) /\
     chans (AddLink id c) = <[ch := mkChan 10 []]> (chans c)) /\
  (is_Some (read c !! id) ->
   read (AddLink id c) = read c /\ chans (AddLink id c) = chans c) /\
  read (AddLink id (AddLink id c)) = read (AddLink id c) /\
  chans (AddLink id (AddLink id c)) = chans (AddLink id c) /\
  AddLink id (AddLink id c) =
    logf logging.Info "add link %s" [logging.AStr id] (AddLink id c).
Proof.
  assert (Htwice : AddLink id (AddLink id c) =
                   logf logging.Info "add link %s" [logging.AStr id] (AddLink id c))
    by apply AddLink_present, AddLink_registers.
  split; [|split; [|split; [|split]]].
  - intros Hid. destruct (chan_make_fresh 10 (chans c)) as [Hfresh Hheap].
    exists (chan_make 10 (chans c)).1. split; [exact Hfresh|].
    rewrite AddLink_absent by exact Hid. cbn [read chans set_chans set_read].
    split; [reflexivity | exact Hheap].
  - intros Hid. rewrite AddLink_present by exact Hid. split; reflexivity.
  - rewrite Htwice. reflexivity.
  - rewrite Htwice. reflexivity.
  - exact Htwice.
Qed.

Lemma AddLink_idempotent_witness :
  exists ch,
    chans conn0 !! ch = None /\
    read (AddLink "A" conn0) = <["A" := ch]> (read conn0) /\
    chans (AddLink "A" conn0) = <[ch := mkChan 10 []]> (chans conn0).
Proof.
  destruct (AddLink_idempotent "A" conn0) as [H _]. apply H. reflexivity.
Defined.

(** ** Reset *)

Lemma Reset_unregistered (id : string) (msg : Msg) (c : Conn) :
  read c !! id = None -> Reset id msg c = None.
Proof. intros Hid. unfold Reset. rewrite Hid. reflexivity. Qed.

(** Once the lookup has returned nil, the send is blocked in every state. *)
Lemma Reset_send_nil (msg : Msg) (c : Conn) : Reset_send None msg c = None.
Proof. reflexivity. Qed.

(** Reset puts the message behind what the channel already holds. *)
Lemma Reset_appends (id : string) (msg : Msg) (c : Conn) (ch : chan_ref) (q : Chan) :
  read c !! id = Some ch ->
  chans c !! ch = Some q ->
  (length (chan_buf q) < chan_cap q)%nat ->
  exists c',
    Reset id msg c = Some c' /\
    read c' = read c /\
    pending (chans c') ch = (chan_buf q ++ [msg])%list.
Proof.
  intros Hid Hq Hroom. unfold Reset, Reset_send. rewrite Hid.
  rewrite (chan_send_room ch q msg (chans c) Hq Hroom).
  eexists. split; [reflexivity|]. split; [reflexivity|].
  cbn [chans set_chans]. rewrite (pending_push ch q msg (chans c) Hq).
  unfold pending. rewrite Hq. reflexivity.
Qed.

(** C6, at a link whose channel holds a frame: Reset goes through, and the
    next item read from the link's channel is the frame that was there
    before, the message of Reset coming after it. *)
Theorem Reset_behind_buffered_frames :
  exists ch c',
    ChanRead "A" busy0 = Some ch /\
    pending (chans busy0) ch = [data "A" "peer"] /\
    Reset "A" notice busy0 = Some c' /\
    fst <$> chan_recv (ChanRead "A" c') (chans c') = Some (data "A" "peer") /\
    pending (chans c') ch = [data "A" "peer"; notice].
Proof.
  exists 3%positive. eexists. split; [reflexivity|]. split; [reflexivity|].
  split; [reflexivity|]. split; reflexivity.
Qed.

(** With nothing buffered, the message of Reset is the next item read, and a
    frame the read loop delivers afterwards comes behind it. *)
Lemma Reset_next_when_empty
  (id : string) (msg frame : Msg) (c : Conn) (ch : chan_ref) (n : nat) :
  read c !! id = Some ch ->
  chans c !! ch = Some (mkChan (S (S n)) []) ->
  exists c1 c2,
    Reset id msg c = Some c1 /\
    fst <$> chan_recv (ChanRead id c1) (chans c1) = Some msg /\
    loopRead_step EvSendCase c1 (mkLoopRead (LR_Select frame ch) 0) =
      Some (c2, mkLoopRead LR_Read 0) /\
    pending (chans c2) ch = [msg; frame].
Proof.
  intros Hid Hq. unfold Reset, Reset_send, ChanRead. rewrite Hid.
  rewrite (chan_send_room ch _ msg (chans c) Hq) by (cbn; lia).
  do 2 eexists. split; [reflexivity|]. cbn [read chans set_chans].
  rewrite Hid. split.
  - unfold chan_recv. rewrite lookup_insert_eq. reflexivity.
  - unfold loopRead_step. cbn [lr_pc lr_timeout chans set_chans].
    erewrite chan_send_room; [| apply lookup_insert_eq | cbn; lia].
    split; [reflexivity|]. cbn [chans set_chans].
    unfold pending. rewrite lookup_insert_eq. reflexivity.
Qed.

(** ** The write loop *)

Lemma chan_recv_head (l : chan_ref) (q : Chan) (m : Msg) (rest : list Msg)
  (h : gmap chan_ref Chan) :
  h !! l = Some q ->
  chan_buf q = m :: rest ->
  chan_recv (Some l) h = Some (m, <[l := mkChan (chan_cap q) rest]> h).
Proof. intros Hq Hbuf. unfold chan_recv. rewrite Hq, Hbuf. reflexivity. Qed.

(** C8. With [msg] at the head of the outbound queue, one round of the write
    loop takes it off the queue, makes exactly one call of WriteMessage,
    with the sender set to the configured ID and the configured write
    timeout, and is back at its select; when the write fails the error is
    logged and the message is nowhere any more: the queue holds what
    followed it and no other channel has changed. *)
Theorem loopWrite_stamps_sender
  (c : Conn) (q : Chan) (msg : Msg) (rest : list Msg) (err : option string) :
  chans c !! write c = Some q ->
  chan_buf q = msg :: rest ->
  exists c',
    loopWrite_run [EvRecvCase; EvWriteMessage err] c LW_Select =
      Some (c', LW_Select) /\
    net c' = (net c ++ [NetWriteMessage
                          (mkMsg (XType msg) (ID (cfg c)) (To msg)
                                 (LinkId msg) (Payload msg))
                          (WriteTimeout (cfg c)) err])%list /\
    log c' = match err with
             | Some e =>
                 (log c ++ [logging.mkEntry logging.Error
                              "write message error on %s: %v"
                              [logging.AStr (ID (cfg c)); logging.AStr e]])%list
             | None => log c
             end /\
    pending (chans c') (write c) = rest /\
    (forall l, l <> write c -> chans c' !! l = chans c !! l) /\
    ctx_done c' = ctx_done c.
Proof.
  intros Hq Hbuf. cbn [loopWrite_run]. unfold loopWrite_step at 1.
  rewrite (chan_recv_head (write c) q msg rest (chans c) Hq Hbuf).
  unfold loopWrite_step.
  destruct err as [e|]; eexists; (split; [reflexivity|]);
    cbn [net log chans ctx_done cfg set_chans net_call logf write];
    (split; [reflexivity|]); (split; [reflexivity|]).
  all: split; [unfold pending; rewrite lookup_insert_eq; reflexivity|].
  all: split; [|reflexivity].
  all: intros l Hl; apply lookup_insert_ne; congruence.
Qed.

Lemma loopWrite_stamps_sender_witness :
  exists c',
    loopWrite_run [EvRecvCase; EvWriteMessage (Some "broken pipe")]
                  queued0 LW_Select = Some (c', LW_Select) /\
    pending (chans c') (write queued0) = [data "B" "app"].
Proof.
  destruct (loopWrite_stamps_sender queued0
              (mkChan 1024 [data "A" "app"; data "B" "app"])
              (data "A" "app") [data "B" "app"] (Some "broken pipe"))
    as (c' & Hrun & _ & _ & Hrest & _); [reflexivity | reflexivity |].
  exists c'. split; [exact Hrun | exact Hrest].
Defined.

(** ** Construction *)

(** C9. When the dial succeeds, New makes one call of WriteMessage and no
    more: the handshake frame from the configured ID to "server" carrying
    the configured key, with a timeout of five seconds.  When the dial or
    that write fails, New panics with the error and has started no
    goroutine; when both succeed it has started the four loops. *)
Theorem New_handshake (cfg : Configure) (dial_err hs_err : option string) :
  let hs := mkMsg Msg_handshake (ID cfg) "server" "" (Msg_Hsp (Enc cfg)) in
  (dial_err = None ->
   net_of (New cfg dial_err hs_err) =
     [NetDial (UseSSL cfg) (Server cfg) None;
      NetWriteMessage hs (5 * 1000000000) hs_err] /\
   length (List.filter is_handshake_write (net_of (New cfg dial_err hs_err)))
     = 1%nat) /\
  (forall err, dial_err = Some err ->
     (exists c, New cfg dial_err hs_err = New_panic err c) /\
     net_of (New cfg dial_err hs_err) =
       [NetDial (UseSSL cfg) (Server cfg) (Some err)] /\
     started_by (New cfg dial_err hs_err) = []) /\
  (forall err, dial_err = None -> hs_err = Some err ->
     (exists c, New cfg dial_err hs_err = New_panic err c) /\
     started_by (New cfg dial_err hs_err) = []) /\
  (dial_err = None -> hs_err = None ->
   (exists s, New cfg dial_err hs_err =
                New_ok s [go_loopRead; go_loopWrite; go_keepalive; go_checkDrop]) /\
   started_by (New cfg dial_err hs_err) =
     [go_loopRead; go_loopWrite; go_keepalive; go_checkDrop]).
Proof.
  intros hs. split; [|split; [|split]].
  - intros ->. destruct hs_err; split; reflexivity.
  - intros err ->. split; [eexists; reflexivity|]. split; reflexivity.
  - intros err -> ->. split; [eexists; reflexivity | reflexivity].
  - intros -> ->. split; [eexists; reflexivity | reflexivity].
Qed.

Lemma New_handshake_witness :
  started_by (New cfg0 None (Some "write tcp: i/o timeout")) = [].
Proof.
  destruct (New_handshake cfg0 None (Some "write tcp: i/o timeout"))
    as (_ & _ & H & _).
  apply (H "write tcp: i/o timeout"); reflexivity.
Defined.

(** ** The shape of the reachable states *)

Lemma same_shape_refl (c c' : Conn) :
  read c' = read c -> unknownRead c' = unknownRead c -> write c' = write c ->
  chans c' = chans c -> same_shape c c'.
Proof. unfold same_shape. auto. Qed.

Lemma same_shape_wf (c c' : Conn) : conn_wf c -> same_shape c c' -> conn_wf c'.
Proof.
  intros [Hl Hu Hw Hd Hi Hb] (Hr & Hur & Hwr & Hch).
  destruct Hch as [Hch|(l & q & q' & Hq & Hch & Hcap & Hlen)].
  - constructor; rewrite ?Hr, ?Hur, ?Hwr, ?Hch; assumption.
  - assert (Hlk : forall l0 q0, chans c !! l0 = Some q0 ->
              exists q1, chans c' !! l0 = Some q1 /\ chan_cap q1 = chan_cap q0).
    { intros l0 q0 Hq0. rewrite Hch. destruct (decide (l = l0)) as [->|Hne].
      - rewrite lookup_insert_eq. exists q'. split; [reflexivity|]. congruence.
      - rewrite lookup_insert_ne by exact Hne. eauto. }
    constructor; rewrite ?Hr, ?Hur, ?Hwr.
    + intros id ch Hid. destruct (Hl id ch Hid) as (q0 & Hq0 & Hc0).
      destruct (Hlk ch q0 Hq0) as (q1 & Hq1 & Hc1). exists q1. split; [exact Hq1|]. lia.
    + destruct Hu as (q0 & Hq0 & Hc0).
      destruct (Hlk _ q0 Hq0) as (q1 & Hq1 & Hc1). exists q1. split; [exact Hq1|]. lia.
    + destruct Hw as (q0 & Hq0 & Hc0).
      destruct (Hlk _ q0 Hq0) as (q1 & Hq1 & Hc1). exists q1. split; [exact Hq1|]. lia.
    + exact Hd.
    + exact Hi.
    + intros l0 q0. rewrite Hch. destruct (decide (l = l0)) as [->|Hne].
      * rewrite lookup_insert_eq. intros [= <-]. exact Hlen.
      * rewrite lookup_insert_ne by exact Hne. apply Hb.
Qed.

Lemma chan_send_shape (c : Conn) (ch : option chan_ref) (m : Msg) (h : gmap chan_ref Chan) :
  chan_send ch m (chans c) = Some h -> same_shape c (set_chans h c).
Proof.
  intros Hsend. apply chan_send_inv in Hsend as (l & q & _ & Hq & Hroom & ->).
  repeat split. right. exists l, q, (chan_push q m).
  repeat split; [exact Hq | cbn; rewrite length_app; cbn; lia].
Qed.

Lemma chan_recv_shape (c : Conn) (ch : option chan_ref) (m : Msg) (h : gmap chan_ref Chan) :
  conn_wf c ->
  chan_recv ch (chans c) = Some (m, h) -> same_shape c (set_chans h c).
Proof.
  intros Hwf. unfold chan_recv. destruct ch as [l|]; [|discriminate].
  destruct (chans c !! l) as [q|] eqn:Hq; [|discriminate].
  destruct (chan_buf q) as [|m0 rest] eqn:Hbuf; [discriminate|].
  intros [= <- <-]. repeat split. right.
  exists l, q, (mkChan (chan_cap q) rest).
  repeat split; [exact Hq|]. cbn.
  pose proof (wf_bounded c Hwf l q Hq) as Hlen. rewrite Hbuf in Hlen. cbn in Hlen. lia.
Qed.

Lemma loop_return_shape (c : Conn) : same_shape c (loop_return c).
Proof.
  unfold loop_return, close, cancel. destruct c as [? [?|]]; apply same_shape_refl; reflexivity.
Qed.

Lemma same_shape_trans (c1 c2 c3 : Conn) :
  same_shape c1 c2 -> chans c3 = chans c2 -> read c3 = read c2 ->
  unknownRead c3 = unknownRead c2 -> write c3 = write c2 -> same_shape c1 c3.
Proof.
  intros (Hr & Hu & Hw & Hch) Hch3 Hr3 Hu3 Hw3. unfold same_shape.
  rewrite Hr3, Hu3, Hw3, Hch3. auto.
Qed.

(** The read loop only reads the registry; of the channels it changes at
    most the one it sends to. *)
Lemma loopRead_step_shape (e : LoopReadEvent) (c c' : Conn) (s s' : LoopRead) :
  loopRead_step e c s = Some (c', s') -> same_shape c c'.
Proof.
  destruct s as [pc t]. unfold loopRead_step. cbn [lr_pc lr_timeout].
  destruct pc as [|m|m|m ch|]; destruct e as [[m'|err]| | |now|];
    try discriminate.
  - destruct (is_keepalive (XType m')); intros [= <- <-];
      apply same_shape_refl; reflexivity.
  - destruct (is_io_timeout err); [destruct (60 <=? int_add t 1)|];
      intros [= <- <-]; try (apply same_shape_refl; reflexivity).
    eapply same_shape_trans; [apply same_shape_refl; reflexivity|..];
      rewrite ?loop_return_chans; try reflexivity;
      unfold loop_return, close, cancel; destruct c as [? [?|]]; reflexivity.
  - destruct (drop c !! LinkId m); intros [= <- <-];
      apply same_shape_refl; reflexivity.
  - intros [= <- <-]. apply same_shape_refl; reflexivity.
  - destruct (chan_send (Some ch) m (chans c)) as [h|] eqn:Hsend; [|discriminate].
    intros [= <- <-]. eapply chan_send_shape, Hsend.
  - intros [= <- <-]. apply same_shape_refl; reflexivity.
  - destruct (ctx_done c); [|discriminate].
    intros [= <- <-]. apply loop_return_shape.
Qed.

Lemma loopWrite_step_shape (e : LoopWriteEvent) (c c' : Conn) (pc pc' : LoopWritePC) :
  conn_wf c ->
  loopWrite_step e c pc = Some (c', pc') -> same_shape c c'.
Proof.
  intros Hwf. unfold loopWrite_step.
  destruct pc as [|m|]; destruct e as [| |err]; try discriminate.
  - destruct (chan_recv (Some (write c)) (chans c)) as [[m h]|] eqn:Hrecv;
      [|discriminate].
    intros [= <- <-]. eapply chan_recv_shape; eassumption.
  - destruct (ctx_done c); [|discriminate].
    intros [= <- <-]. apply loop_return_shape.
  - destruct err; intros [= <- <-]; apply same_shape_refl; reflexivity.
Qed.

Lemma checkDrop_step_shape (e : CheckDropEvent) (c c' : Conn) (pc pc' : CheckDropPC) :
  checkDrop_step e c pc = Some (c', pc') -> same_shape c c'.
Proof.
  unfold checkDrop_step. destruct pc; destruct e; try discriminate;
    intros [= <- <-]; apply same_shape_refl; reflexivity.
Qed.

Lemma AddLink_wf (id : string) (c : Conn) : conn_wf c -> conn_wf (AddLink id c).
Proof.
  intros Hwf. destruct (read c !! id) as [ch|] eqn:Hid.
  - rewrite AddLink_present by eauto.
    eapply same_shape_wf; [exact Hwf | apply same_shape_refl; reflexivity].
  - rewrite AddLink_absent by exact Hid.
    destruct (chan_make_fresh 10 (chans c)) as [Hfresh ->].
    set (l := (chan_make 10 (chans c)).1) in *.
    destruct Hwf as [Hl Hu Hw Hd Hi Hb].
    assert (Hkeep : forall l0 q0, chans c !! l0 = Some q0 ->
              <[l := mkChan 10 []]> (chans c) !! l0 = Some q0).
    { intros l0 q0 Hq0. rewrite lookup_insert_ne; [exact Hq0 | congruence]. }
    constructor; cbn [read unknownRead write chans set_chans set_read logf].
    + intros id' ch. destruct (decide (id = id')) as [<-|Hne].
      * rewrite lookup_insert_eq. intros [= <-].
        rewrite lookup_insert_eq. eauto.
      * rewrite lookup_insert_ne by exact Hne. intros Hid'.
        destruct (Hl id' ch Hid') as (q0 & Hq0 & Hc0). eauto.
    + destruct Hu as (q0 & Hq0 & Hc0). eauto.
    + destruct Hw as (q0 & Hq0 & Hc0). eauto.
    + exact Hd.
    + intros id1 id2 ch.
      destruct (decide (id = id1)) as [<-|Hne1]; destruct (decide (id = id2)) as [<-|Hne2];
        rewrite ?lookup_insert_eq, ?lookup_insert_ne by assumption.
      * reflexivity.
      * intros [= <-] Hid2. destruct (Hl id2 l Hid2) as (q0 & Hq0 & _). congruence.
      * intros Hid1 [= <-]. destruct (Hl id1 l Hid1) as (q0 & Hq0 & _). congruence.
      * apply Hi.
    + intros l0 q0. destruct (decide (l = l0)) as [<-|Hne].
      * rewrite lookup_insert_eq. intros [= <-]. cbn. lia.
      * rewrite lookup_insert_ne by exact Hne. apply Hb.
Qed.

Lemma step_wf (a : Action) (s s' : System) :
  conn_wf (sys_conn s) -> step a s = Some s' -> conn_wf (sys_conn s').
Proof.
  intros Hwf. unfold step. destruct a as [e|e|e|id|id m|ch|m].
  - destruct (loopRead_step e (sys_conn s) (sys_loopRead s)) as [[c lr]|] eqn:Hs;
      [|discriminate].
    intros [= <-]. eapply same_shape_wf, loopRead_step_shape; eassumption.
  - destruct (loopWrite_step e (sys_conn s) (sys_loopWrite s)) as [[c lw]|] eqn:Hs;
      [|discriminate].
    intros [= <-]. eapply same_shape_wf, loopWrite_step_shape; eassumption.
  - destruct (checkDrop_step e (sys_conn s) (sys_checkDrop s)) as [[c cd]|] eqn:Hs;
      [|discriminate].
    intros [= <-]. eapply same_shape_wf, checkDrop_step_shape; eassumption.
  - intros [= <-]. apply AddLink_wf, Hwf.
  - unfold Reset, Reset_send.
    destruct (chan_send (read (sys_conn s) !! id) m (chans (sys_conn s))) as [h|] eqn:Hs;
      [|discriminate].
    intros [= <-]. eapply same_shape_wf, chan_send_shape; eassumption.
  - destruct (chan_recv (Some ch) (chans (sys_conn s))) as [[m h]|] eqn:Hs;
      [|discriminate].
    intros [= <-]. eapply same_shape_wf, chan_recv_shape; eassumption.
  - destruct (chan_send (Some (write (sys_conn s))) m (chans (sys_conn s))) as [h|] eqn:Hs;
      [|discriminate].
    intros [= <-]. eapply same_shape_wf, chan_send_shape; eassumption.
Qed.

Lemma New_wf (cfg : Configure) (s : System) (started : list Goroutine) :
  New cfg None None = New_ok s started -> conn_wf (sys_conn s).
Proof.
  unfold New. cbn. intros [= <- _]. cbn.
  assert (Hne : fresh (dom (<[fresh (dom (∅ : gmap chan_ref Chan)) := mkChan 1024 []]>
                             (∅ : gmap chan_ref Chan)))
                <> fresh (dom (∅ : gmap chan_ref Chan))).
  { intros Heq.
    apply (is_fresh (dom (<[fresh (dom (∅ : gmap chan_ref Chan)) := mkChan 1024 []]>
                            (∅ : gmap chan_ref Chan)))).
    rewrite Heq, dom_insert_L. set_solver. }
  constructor; cbn.
  - intros id ch. rewrite lookup_empty. discriminate.
  - rewrite lookup_insert_ne by exact Hne. rewrite lookup_insert_eq. eauto.
  - rewrite lookup_insert_eq. eauto.
  - congruence.
  - intros id1 id2 ch. rewrite lookup_empty. discriminate.
  - intros l q. rewrite lookup_insert. case_decide.
    + intros [= <-]. cbn. lia.
    + rewrite lookup_insert. case_decide; [intros [= <-]; cbn; lia|].
      rewrite lookup_empty. discriminate.
Qed.

Lemma reachable_wf (cfg : Configure) (s : System) :
  reachable cfg s -> conn_wf (sys_conn s).
Proof.
  intros (s0 & started & acts & Hnew & Hrun).
  apply New_wf in Hnew. revert s0 Hnew Hrun.
  induction acts as [|a acts IH]; intros s0 Hwf; cbn [run].
  - intros [= <-]. exact Hwf.
  - destruct (step a s0) as [s1|] eqn:Hstep; [|discriminate].
    apply IH. eapply step_wf; eassumption.
Qed.

(** In a reachable state the channel a frame is routed to exists; it is
    the link's own channel, of capacity 10, or the unknown channel, of
    capacity 1024, and no other link is registered with it. *)
Lemma reachable_target (cfg : Configure) (s : System) (id : string) :
  reachable cfg s ->
  exists q,
    chans (sys_conn s) !! target (sys_conn s) id = Some q /\
    (length (chan_buf q) <= chan_cap q)%nat /\
    chan_cap q = match read (sys_conn s) !! id with
                 | Some _ => 10%nat
                 | None => 1024%nat
                 end /\
    (forall id', read (sys_conn s) !! id' = Some (target (sys_conn s) id) ->
       id' = id /\ is_Some (read (sys_conn s) !! id)).
Proof.
  intros Hreach. pose proof (reachable_wf cfg s Hreach) as Hwf.
  unfold target. destruct (read (sys_conn s) !! id) as [ch|] eqn:Hid.
  - destruct (wf_links _ Hwf id ch Hid) as (q & Hq & Hcap).
    exists q. split; [exact Hq|]. split; [eapply wf_bounded; eassumption|].
    split; [exact Hcap|]. intros id' Hid'.
    split; [eapply wf_inj; eassumption | eauto].
  - destruct (wf_unknown _ Hwf) as (q & Hq & Hcap).
    exists q. split; [exact Hq|]. split; [eapply wf_bounded; eassumption|].
    split; [exact Hcap|]. intros id' Hid'.
    destruct (wf_links _ Hwf id' _ Hid') as (q' & Hq' & Hcap'). exfalso.
    rewrite Hq in Hq'. injection Hq' as <-. lia.
Qed.

(** ** The sweep among the other goroutines

    Between the scan of a round and its deletes the other goroutines run.
    They never touch an entry that exists: the read loop is the only one to
    write entries, and it writes one only for a link that had none at its
    drop check.  So what a round deletes is what its scan found expired. *)

Lemma step_no_entry_inv (a : Action) (s s' : System) :
  no_entry_inv s -> step a s = Some s' -> no_entry_inv s'.
Proof.
  unfold no_entry_inv, step. intros Hinv. destruct a as [e|e|e|id|id m0|ch|m0].
  - destruct (sys_loopRead s) as [pc t] eqn:Hlr. cbn [lr_pc] in Hinv.
    unfold loopRead_step. cbn [lr_pc lr_timeout].
    destruct pc as [|m|m|m ch|]; destruct e as [[m'|err]| | |now|];
      try discriminate.
    + destruct (is_keepalive (XType m')); intros [= <-] m1; discriminate.
    + destruct (is_io_timeout err); [destruct (60 <=? int_add t 1)|];
        intros [= <-] m1; discriminate.
    + destruct (drop (sys_conn s) !! LinkId m) eqn:Hd; intros [= <-] m1;
        cbn [sys_loopRead sys_conn lr_pc past_check]; [discriminate|].
      intros [= <-]. exact Hd.
    + intros [= <-] m1. cbn [sys_loopRead sys_conn lr_pc past_check].
      intros [= <-]. apply Hinv. reflexivity.
    + destruct (chan_send (Some ch) m (chans (sys_conn s))); [|discriminate].
      intros [= <-] m1; discriminate.
    + intros [= <-] m1; discriminate.
    + destruct (ctx_done (sys_conn s)); [|discriminate].
      intros [= <-] m1; discriminate.
  - unfold loopWrite_step.
    destruct (sys_loopWrite s) as [|m|]; destruct e as [| |err]; try discriminate.
    + destruct (chan_recv (Some (write (sys_conn s))) (chans (sys_conn s)))
        as [[m h]|]; [|discriminate].
      intros [= <-]. exact Hinv.
    + destruct (ctx_done (sys_conn s)); [|discriminate].
      intros [= <-]. cbn [sys_conn sys_loopRead].
      unfold loop_return, close, cancel.
      destruct (sys_conn s) as [? [?|]] eqn:Hc; cbn in *; exact Hinv.
    + destruct err; intros [= <-]; exact Hinv.
  - unfold checkDrop_step.
    destruct (sys_checkDrop s) as [|drops]; destruct e as [now|]; try discriminate.
    + intros [= <-]. exact Hinv.
    + intros [= <-] m1 Hm1. cbn [sys_conn sys_loopRead drop set_drop] in *.
      rewrite delete_all_lookup. case_decide; [reflexivity|]. apply Hinv, Hm1.
  - intros [= <-] m1 Hm1. cbn [with_conn sys_conn sys_loopRead] in *.
    unfold AddLink. cbn [read logf].
    destruct (read (sys_conn s) !! id); [apply Hinv, Hm1|].
    destruct (chan_make 10 (chans (sys_conn s))) as [l h]. apply Hinv, Hm1.
  - unfold Reset, Reset_send.
    destruct (chan_send (read (sys_conn s) !! id) m0 (chans (sys_conn s)));
      [|discriminate].
    intros [= <-]. exact Hinv.
  - destruct (chan_recv (Some ch) (chans (sys_conn s))) as [[m h]|]; [|discriminate].
    intros [= <-]. exact Hinv.
  - destruct (chan_send (Some (write (sys_conn s))) m0 (chans (sys_conn s)));
      [|discriminate].
    intros [= <-]. exact Hinv.
Qed.

Lemma reachable_no_entry_inv (cfg : Configure) (s : System) :
  reachable cfg s -> no_entry_inv s.
Proof.
  intros (s0 & started & acts & Hnew & Hrun).
  assert (Hinv0 : no_entry_inv s0).
  { unfold New in Hnew. cbn in Hnew. injection Hnew as <- _.
    intros m. cbn. discriminate. }
  clear Hnew. revert s0 Hinv0 Hrun.
  induction acts as [|a acts IH]; intros s0 Hinv0; cbn [run].
  - intros [= <-]. exact Hinv0.
  - destruct (step a s0) as [s1|] eqn:Hstep; [|discriminate].
    apply IH. eapply step_no_entry_inv; eassumption.
Qed.

(** Outside the sweep, an entry that exists is left as it is. *)
Lemma step_keeps_entry (a : Action) (s s' : System) (k : string) (t : Time) :
  no_entry_inv s ->
  is_checkDrop a = false ->
  step a s = Some s' ->
  drop (sys_conn s) !! k = Some t ->
  drop (sys_conn s') !! k = Some t /\ sys_checkDrop s' = sys_checkDrop s.
Proof.
  unfold no_entry_inv, step. intros Hinv Ha.
  destruct a as [e|e|e|id|id m0|ch|m0]; try discriminate Ha.
  - destruct (sys_loopRead s) as [pc t0] eqn:Hlr. cbn [lr_pc] in Hinv.
    unfold loopRead_step. cbn [lr_pc lr_timeout].
    destruct pc as [|m|m|m ch|]; destruct e as [[m'|err]| | |now|];
      try discriminate.
    + destruct (is_keepalive (XType m')); intros [= <-] Hk; split; auto.
    + destruct (is_io_timeout err); [destruct (60 <=? int_add t0 1)|];
        intros [= <-] Hk; (split; [|reflexivity]); try exact Hk.
      cbn [sys_conn]. unfold loop_return, close, cancel.
      destruct (sys_conn s) as [? [?|]]; exact Hk.
    + destruct (drop (sys_conn s) !! LinkId m); intros [= <-] Hk; split; auto.
    + intros [= <-] Hk; split; auto.
    + destruct (chan_send (Some ch) m (chans (sys_conn s))); [|discriminate].
      intros [= <-] Hk; split; auto.
    + intros [= <-] Hk. split; [|reflexivity].
      cbn [sys_conn drop set_drop logf].
      rewrite lookup_insert_ne; [exact Hk|].
      intros Heq. rewrite <- Heq, (Hinv m eq_refl) in Hk. discriminate.
    + destruct (ctx_done (sys_conn s)); [|discriminate].
      intros [= <-] Hk. split; [|reflexivity].
      cbn [sys_conn]. unfold loop_return, close, cancel.
      destruct (sys_conn s) as [? [?|]]; exact Hk.
  - unfold loopWrite_step.
    destruct (sys_loopWrite s) as [|m|]; destruct e as [| |err]; try discriminate.
    + destruct (chan_recv (Some (write (sys_conn s))) (chans (sys_conn s)))
        as [[m h]|]; [|discriminate].
      intros [= <-] Hk; split; auto.
    + destruct (ctx_done (sys_conn s)); [|discriminate].
      intros [= <-] Hk. split; [|reflexivity].
      cbn [sys_conn]. unfold loop_return, close, cancel.
      destruct (sys_conn s) as [? [?|]]; exact Hk.
    + destruct err; intros [= <-] Hk; split; auto.
  - intros [= <-] Hk. split; [|reflexivity].
    cbn [with_conn sys_conn]. unfold AddLink. cbn [read logf].
    destruct (read (sys_conn s) !! id); [exact Hk|].
    destruct (chan_make 10 (chans (sys_conn s))) as [l h]. exact Hk.
  - unfold Reset, Reset_send.
    destruct (chan_send (read (sys_conn s) !! id) m0 (chans (sys_conn s)));
      [|discriminate].
    intros [= <-] Hk; split; auto.
  - destruct (chan_recv (Some ch) (chans (sys_conn s))) as [[m h]|]; [|discriminate].
    intros [= <-] Hk; split; auto.
  - destruct (chan_send (Some (write (sys_conn s))) m0 (chans (sys_conn s)));
      [|discriminate].
    intros [= <-] Hk; split; auto.
Qed.

Lemma step_keeps_checkDrop (a : Action) (s s' : System) :
  is_checkDrop a = false ->
  step a s = Some s' ->
  sys_checkDrop s' = sys_checkDrop s.
Proof.
  unfold step. intros Ha. destruct a as [e|e|e|id|id m0|ch|m0]; try discriminate Ha.
  - destruct (loopRead_step e (sys_conn s) (sys_loopRead s)) as [[c lr]|];
      [|discriminate]. intros [= <-]. reflexivity.
  - destruct (loopWrite_step e (sys_conn s) (sys_loopWrite s)) as [[c lw]|];
      [|discriminate]. intros [= <-]. reflexivity.
  - intros [= <-]. reflexivity.
  - destruct (Reset id m0 (sys_conn s)); [|discriminate]. intros [= <-]. reflexivity.
  - destruct (chan_recv (Some ch) (chans (sys_conn s))) as [[m h]|]; [|discriminate].
    intros [= <-]. reflexivity.
  - destruct (chan_send (Some (write (sys_conn s))) m0 (chans (sys_conn s)));
      [|discriminate]. intros [= <-]. reflexivity.
Qed.

Lemma run_keeps_entry (acts : list Action) (s s' : System) (k : string) (t : Time) :
  no_entry_inv s ->
  forallb (fun a => negb (is_checkDrop a)) acts = true ->
  run acts s = Some s' ->
  sys_checkDrop s' = sys_checkDrop s /\
  (drop (sys_conn s) !! k = Some t -> drop (sys_conn s') !! k = Some t).
Proof.
  revert s. induction acts as [|a acts IH]; intros s Hinv Hacts; cbn [run].
  - intros [= <-]. auto.
  - cbn [forallb] in Hacts. apply andb_prop in Hacts as [Ha Hacts].
    apply negb_true_iff in Ha.
    destruct (step a s) as [s1|] eqn:Hstep; [|discriminate].
    intros Hrun.
    destruct (IH s1 (step_no_entry_inv a s s1 Hinv Hstep) Hacts Hrun) as [Hcd Hkeep].
    split.
    + rewrite Hcd. eapply step_keeps_checkDrop; eassumption.
    + intros Hk. apply Hkeep. eapply step_keeps_entry; eassumption.
Qed.

(** X11. A round of the sweep with the other goroutines running between its
    scan and its deletes: the entries the scan found expired are still the
    same when the deletes come and are gone after them; every other entry
    is as the other goroutines left it. *)
Lemma sweep_round_interleaved
  (cfg : Configure) (s s1 s2 s3 : System) (now : string -> Time)
  (acts : list Action) :
  reachable cfg s ->
  step (ActCheckDrop (EvScan now)) s = Some s1 ->
  forallb (fun a => negb (is_checkDrop a)) acts = true ->
  run acts s1 = Some s2 ->
  step (ActCheckDrop EvLocked) s2 = Some s3 ->
  forall k,
    match drop (sys_conn s) !! k with
    | Some expiry =>
        if time.After (now k) expiry
        then drop (sys_conn s2) !! k = Some expiry /\ drop (sys_conn s3) !! k = None
        else drop (sys_conn s3) !! k = Some expiry
    | None => drop (sys_conn s3) !! k = drop (sys_conn s2) !! k
    end.
Proof.
  intros Hreach Hscan Hacts Hrun Hdel k.
  pose proof (reachable_no_entry_inv cfg s Hreach) as Hinv.
  pose proof (step_no_entry_inv _ _ _ Hinv Hscan) as Hinv1.
  unfold step, checkDrop_step in Hscan.
  destruct (sys_checkDrop s) eqn:Hcd; [|discriminate].
  injection Hscan as <-.
  destruct (run_keeps_entry acts _ s2 k
              (default 0 (drop (sys_conn s) !! k)) Hinv1 Hacts Hrun) as [Hcd2 Hkeep].
  cbn [sys_checkDrop sys_conn] in Hcd2, Hkeep.
  unfold step, checkDrop_step in Hdel. rewrite Hcd2 in Hdel.
  injection Hdel as <-. cbn [sys_conn drop set_drop].
  rewrite delete_all_lookup.
  destruct (drop (sys_conn s) !! k) as [expiry|] eqn:Hk; cbn [default] in Hkeep.
  - destruct (time.After (now k) expiry) eqn:Hexp.
    + rewrite decide_True by (apply scan_drops_spec; eauto). auto.
    + rewrite decide_False.
      * apply Hkeep. reflexivity.
      * intros Hin. apply scan_drops_spec in Hin as (t' & Ht' & Hexp').
        congruence.
  - rewrite decide_False; [reflexivity|].
    intros Hin. apply scan_drops_spec in Hin as (t' & Ht' & _). congruence.
Qed.

(** * Further properties of the code *)

(** ** What every step keeps *)

Lemma evolves_refl (c : Conn) : evolves c c.
Proof.
  unfold evolves. repeat split; auto; exists []; rewrite app_nil_r; reflexivity.
Qed.

Lemma evolves_trans (c1 c2 c3 : Conn) :
  evolves c1 c2 -> evolves c2 c3 -> evolves c1 c3.
Proof.
  intros (Hc & Hn & Hu & Hw & Hd & Hr & [ks Hk] & [ls Hl])
         (Hc' & Hn' & Hu' & Hw' & Hd' & Hr' & [ks' Hk'] & [ls' Hl']).
  unfold evolves. repeat split; try congruence; auto.
  - exists (ks ++ ks')%list. rewrite Hk', Hk, app_assoc. reflexivity.
  - exists (ls ++ ls')%list. rewrite Hl', Hl, app_assoc. reflexivity.
Qed.

Lemma evolves_logf (l : logging.Level) (fmt : string) (a : list logging.Arg) (c : Conn) :
  evolves c (logf l fmt a c).
Proof.
  unfold evolves. cbn. repeat split; auto.
  - exists []. rewrite app_nil_r. reflexivity.
  - eexists. reflexivity.
Qed.

Lemma evolves_net_call (k : NetCall) (c : Conn) : evolves c (net_call k c).
Proof.
  unfold evolves. cbn. repeat split; auto.
  - eexists. reflexivity.
  - exists []. rewrite app_nil_r. reflexivity.
Qed.

Lemma evolves_set_chans (h : gmap chan_ref Chan) (c : Conn) : evolves c (set_chans h c).
Proof.
  unfold evolves. cbn. repeat split; auto; exists []; rewrite app_nil_r; reflexivity.
Qed.

Lemma evolves_set_drop (d : gmap string Time) (c : Conn) : evolves c (set_drop d c).
Proof.
  unfold evolves. cbn. repeat split; auto; exists []; rewrite app_nil_r; reflexivity.
Qed.

Lemma evolves_loop_return (c : Conn) : evolves c (loop_return c).
Proof.
  unfold loop_return, close, cancel, evolves.
  destruct c as [cf [cn|] rd ur wr dr cd ch nt lg]; cbn; repeat split; auto.
  - eexists. reflexivity.
  - exists []. rewrite app_nil_r. reflexivity.
  - exists []. rewrite app_nil_r. reflexivity.
  - exists []. rewrite app_nil_r. reflexivity.
Qed.

Lemma evolves_AddLink (id : string) (c : Conn) : evolves c (AddLink id c).
Proof.
  destruct (read c !! id) as [ch|] eqn:Hid.
  - rewrite AddLink_present by eauto. apply evolves_logf.
  - rewrite AddLink_absent by exact Hid.
    eapply evolves_trans; [apply evolves_logf|].
    eapply evolves_trans; [|apply evolves_set_chans].
    unfold evolves. cbn. repeat split; auto.
    + intros id' ch' Hid'. rewrite lookup_insert_ne; [exact Hid' | congruence].
    + exists []. rewrite app_nil_r. reflexivity.
    + exists []. rewrite app_nil_r. reflexivity.
Qed.

Lemma loopRead_step_evolves (e : LoopReadEvent) (c c' : Conn) (s s' : LoopRead) :
  loopRead_step e c s = Some (c', s') -> evolves c c'.
Proof.
  destruct s as [pc t]. unfold loopRead_step. cbn [lr_pc lr_timeout].
  destruct pc as [|m|m|m ch|]; destruct e as [[m'|err]| | |now|];
    try discriminate.
  - destruct (is_keepalive (XType m')); intros [= <- <-];
      [apply evolves_refl | apply evolves_logf].
  - destruct (is_io_timeout err); [destruct (60 <=? int_add t 1)|];
      intros [= <- <-].
    + eapply evolves_trans; [apply evolves_logf | apply evolves_loop_return].
    + apply evolves_refl.
    + apply evolves_logf.
  - destruct (drop c !! LinkId m); intros [= <- <-]; apply evolves_refl.
  - intros [= <- <-]. apply evolves_refl.
  - destruct (chan_send (Some ch) m (chans c)); [|discriminate].
    intros [= <- <-]. apply evolves_set_chans.
  - intros [= <- <-].
    eapply evolves_trans; [apply evolves_logf | apply evolves_set_drop].
  - destruct (ctx_done c); [|discriminate].
    intros [= <- <-]. apply evolves_loop_return.
Qed.

Lemma loopWrite_step_evolves (e : LoopWriteEvent) (c c' : Conn) (pc pc' : LoopWritePC) :
  loopWrite_step e c pc = Some (c', pc') -> evolves c c'.
Proof.
  unfold loopWrite_step.
  destruct pc as [|m|]; destruct e as [| |err]; try discriminate.
  - destruct (chan_recv (Some (write c)) (chans c)) as [[m h]|]; [|discriminate].
    intros [= <- <-]. apply evolves_set_chans.
  - destruct (ctx_done c); [|discriminate].
    intros [= <- <-]. apply evolves_loop_return.
  - destruct err; intros [= <- <-].
    + eapply evolves_trans; [apply evolves_net_call | apply evolves_logf].
    + apply evolves_net_call.
Qed.

Lemma step_evolves (a : Action) (s s' : System) :
  step a s = Some s' -> evolves (sys_conn s) (sys_conn s').
Proof.
  unfold step. destruct a as [e|e|e|id|id m|ch|m].
  - destruct (loopRead_step e (sys_conn s) (sys_loopRead s)) as [[c lr]|] eqn:Hs;
      [|discriminate].
    intros [= <-]. eapply loopRead_step_evolves, Hs.
  - destruct (loopWrite_step e (sys_conn s) (sys_loopWrite s)) as [[c lw]|] eqn:Hs;
      [|discriminate].
    intros [= <-]. eapply loopWrite_step_evolves, Hs.
  - unfold checkDrop_step.
    destruct (sys_checkDrop s); destruct e; try discriminate; intros [= <-].
    + apply evolves_refl.
    + apply evolves_set_drop.
  - intros [= <-]. apply evolves_AddLink.
  - unfold Reset, Reset_send.
    destruct (chan_send (read (sys_conn s) !! id) m (chans (sys_conn s)));
      [|discriminate].
    intros [= <-]. apply evolves_set_chans.
  - destruct (chan_recv (Some ch) (chans (sys_conn s))) as [[m h]|]; [|discriminate].
    intros [= <-]. apply evolves_set_chans.
  - destruct (chan_send (Some (write (sys_conn s))) m (chans (sys_conn s)));
      [|discriminate].
    intros [= <-]. apply evolves_set_chans.
Qed.

Lemma run_evolves (acts : list Action) (s s' : System) :
  run acts s = Some s' -> evolves (sys_conn s) (sys_conn s').
Proof.
  revert s. induction acts as [|a acts IH]; intros s; cbn [run].
  - intros [= <-]. apply evolves_refl.
  - destruct (step a s) as [s1|] eqn:Hstep; [|discriminate].
    intros Hrun. eapply evolves_trans; [eapply step_evolves, Hstep | apply IH, Hrun].
Qed.

Lemma step_other_loopRead (a : Action) (s s' : System) :
  is_loopRead a = false ->
  step a s = Some s' ->
  sys_loopRead s' = sys_loopRead s.
Proof.
  unfold step. intros Ha. destruct a as [e|e|e|id|id m0|ch|m0]; try discriminate Ha.
  - destruct (loopWrite_step e (sys_conn s) (sys_loopWrite s)) as [[c lw]|];
      [|discriminate]. intros [= <-]. reflexivity.
  - destruct (checkDrop_step e (sys_conn s) (sys_checkDrop s)) as [[c cd]|];
      [|discriminate]. intros [= <-]. reflexivity.
  - intros [= <-]. reflexivity.
  - destruct (Reset id m0 (sys_conn s)); [|discriminate]. intros [= <-]. reflexivity.
  - destruct (chan_recv (Some ch) (chans (sys_conn s))) as [[m h]|]; [|discriminate].
    intros [= <-]. reflexivity.
  - destruct (chan_send (Some (write (sys_conn s))) m0 (chans (sys_conn s)));
      [|discriminate]. intros [= <-]. reflexivity.
Qed.

Lemma reachable_sys0 : reachable cfg0 sys0.
Proof.
  exists sys0, [go_loopRead; go_loopWrite; go_keepalive; go_checkDrop], [].
  split; reflexivity.
Qed.

Lemma reachable_run (cf : Configure) (s s' : System) (acts : list Action) :
  reachable cf s -> run acts s = Some s' -> reachable cf s'.
Proof.
  intros (s0 & started & acts0 & Hnew & Hrun0) Hrun.
  exists s0, started, (acts0 ++ acts)%list. split; [exact Hnew|].
  clear Hnew. revert s0 Hrun0. induction acts0 as [|a acts0 IH]; intros s0; cbn [run app].
  - intros [= <-]. exact Hrun.
  - destruct (step a s0) as [s1|]; [apply IH | discriminate].
Qed.

Lemma reachable_timed_out : reachable cfg0 sys_timed_out.
Proof.
  apply (reachable_run cfg0 sys0 _ timed_out_acts reachable_sys0).
  vm_compute. reflexivity.
Qed.

(** ** The counter never wraps *)

(** X1. In every state the connection can reach, the timeout counter of the
    read loop lies between 0 and 60; while the loop has not returned it is
    below 60, so the increment of Go's int never wraps around. *)
Theorem reachable_timeout_bounds (cf : Configure) (s : System) :
  reachable cf s ->
  0 <= lr_timeout (sys_loopRead s) <= 60 /\
  (lr_pc (sys_loopRead s) <> LR_Returned ->
   lr_timeout (sys_loopRead s) < 60 /\
   int_add (lr_timeout (sys_loopRead s)) 1 = lr_timeout (sys_loopRead s) + 1).
Proof.
  intros Hreach. destruct (reachable_loopRead_inv cf s Hreach) as (_ & Ht & Hlt).
  split; [exact Ht|]. intros Hpc. specialize (Hlt Hpc).
  split; [exact Hlt|]. apply int_add_small. lia.
Qed.

Lemma reachable_timeout_bounds_witness :
  0 <= lr_timeout (sys_loopRead sys_timed_out) <= 60.
Proof.
  exact (proj1 (reachable_timeout_bounds cfg0 sys_timed_out reachable_timed_out)).
Defined.

(** ** Bounded queues, channels of their own *)

(** X2. In every reachable state a registered link's channel holds at most
    10 frames, and the unknown channel and the outbound queue at most 1024
    each. *)
Theorem reachable_queues_bounded (cf : Configure) (s : System) :
  reachable cf s ->
  (forall id ch, ChanRead id (sys_conn s) = Some ch ->
     (length (pending (chans (sys_conn s)) ch) <= 10)%nat) /\
  (length (pending (chans (sys_conn s)) (ChanUnknown (sys_conn s))) <= 1024)%nat /\
  (length (pending (chans (sys_conn s)) (write (sys_conn s))) <= 1024)%nat.
Proof.
  intros Hreach. pose proof (reachable_wf cf s Hreach) as Hwf.
  unfold ChanRead, ChanUnknown, pending. split; [|split].
  - intros id ch Hid. destruct (wf_links _ Hwf id ch Hid) as (q & Hq & Hcap).
    rewrite Hq. pose proof (wf_bounded _ Hwf ch q Hq). lia.
  - destruct (wf_unknown _ Hwf) as (q & Hq & Hcap).
    rewrite Hq. pose proof (wf_bounded _ Hwf _ q Hq). lia.
  - destruct (wf_write _ Hwf) as (q & Hq & Hcap).
    rewrite Hq. pose proof (wf_bounded _ Hwf _ q Hq). lia.
Qed.

Lemma reachable_queues_bounded_witness :
  (length (pending (chans (sys_conn sys_timed_out))
                   (ChanUnknown (sys_conn sys_timed_out))) <= 1024)%nat.
Proof.
  exact (proj1 (proj2 (reachable_queues_bounded cfg0 sys_timed_out reachable_timed_out))).
Defined.

(** X3. In every reachable state two different link IDs are registered with
    two different channels, and no link's channel is the unknown channel or
    the outbound queue, which differ from each other. *)
Theorem reachable_channels_distinct (cf : Configure) (s : System) :
  reachable cf s ->
  (forall id1 id2 ch,
     ChanRead id1 (sys_conn s) = Some ch ->
     ChanRead id2 (sys_conn s) = Some ch -> id1 = id2) /\
  (forall id ch, ChanRead id (sys_conn s) = Some ch ->
     ch <> ChanUnknown (sys_conn s) /\ ch <> write (sys_conn s)) /\
  ChanUnknown (sys_conn s) <> write (sys_conn s).
Proof.
  intros Hreach. pose proof (reachable_wf cf s Hreach) as Hwf.
  unfold ChanRead, ChanUnknown. split; [|split].
  - apply (wf_inj _ Hwf).
  - intros id ch Hid. destruct (wf_links _ Hwf id ch Hid) as (q & Hq & Hcap).
    destruct (wf_unknown _ Hwf) as (qu & Hqu & Hcapu).
    destruct (wf_write _ Hwf) as (qw & Hqw & Hcapw).
    split; intros ->; rewrite Hq in *.
    + injection Hqu as <-. lia.
    + injection Hqw as <-. lia.
  - apply (wf_distinct _ Hwf).
Qed.

Lemma reachable_channels_distinct_witness :
  ChanUnknown (sys_conn sys_timed_out) <> write (sys_conn sys_timed_out).
Proof.
  exact (proj2 (proj2 (reachable_channels_distinct cfg0 sys_timed_out reachable_timed_out))).
Defined.

(** ** The registry only grows *)

(** X4. Whatever the goroutines and the callers do, a link that is
    registered stays registered with the same channel: ChanRead keeps
    returning it, and ChanUnknown keeps returning the same channel. *)
Theorem registry_only_grows (acts : list Action) (s s' : System) :
  run acts s = Some s' ->
  (forall id ch, ChanRead id (sys_conn s) = Some ch ->
     ChanRead id (sys_conn s') = Some ch) /\
  ChanUnknown (sys_conn s') = ChanUnknown (sys_conn s).
Proof.
  intros Hrun. destruct (run_evolves acts s s' Hrun) as (_ & _ & Hu & _ & _ & Hr & _).
  unfold ChanRead, ChanUnknown. split; [exact Hr | exact Hu].
Qed.

Lemma registry_only_grows_witness :
  ChanUnknown (sys_conn sys_timed_out) = ChanUnknown (sys_conn sys0).
Proof.
  refine (proj2 (registry_only_grows timed_out_acts sys0 sys_timed_out _)).
  vm_compute. reflexivity.
Defined.

(** ** Cancellation is final *)

(** X5. Once the context is cancelled it stays cancelled, whatever runs
    afterwards, and Wait returns. *)
Theorem cancellation_is_final (acts : list Action) (s s' : System) :
  run acts s = Some s' ->
  ctx_done (sys_conn s) = true ->
  ctx_done (sys_conn s') = true /\ Wait (sys_conn s') = Some tt.
Proof.
  intros Hrun Hdone.
  destruct (run_evolves acts s s' Hrun) as (_ & _ & _ & _ & Hd & _).
  specialize (Hd Hdone). unfold Wait. rewrite Hd. auto.
Qed.

Lemma cancellation_is_final_witness :
  ctx_done (sys_conn (with_conn (AddLink "A" (sys_conn sys_dead)) sys_dead)) = true.
Proof.
  refine (proj1 (cancellation_is_final [ActAddLink "A"] sys_dead _ _ _)).
  - reflexivity.
  - vm_compute. reflexivity.
Defined.

(** ** A frame goes to its own link *)

Lemma step_select_target_inv (a : Action) (s s' : System) :
  select_target_inv s -> step a s = Some s' -> select_target_inv s'.
Proof.
  intros Hinv Hstep. destruct (is_loopRead a) eqn:Ha.
  - destruct a as [e| | | | | |]; try discriminate Ha. clear Ha.
    unfold step in Hstep. unfold select_target_inv in *.
    destruct (sys_loopRead s) as [pc t] eqn:Hlr. cbn [lr_pc] in Hinv.
    revert Hstep. unfold loopRead_step. cbn [lr_pc lr_timeout].
    destruct pc as [|m|m|m ch|]; destruct e as [[m'|err]| | |now|];
      try discriminate.
    + destruct (is_keepalive (XType m')); intros [= <-] m0 ch0; discriminate.
    + destruct (is_io_timeout err); [destruct (60 <=? int_add t 1)|];
        intros [= <-] m0 ch0; discriminate.
    + destruct (drop (sys_conn s) !! LinkId m); intros [= <-] m0 ch0; discriminate.
    + intros [= <-] m0 ch0. cbn [sys_loopRead sys_conn lr_pc].
      intros [= <- <-]. destruct (read (sys_conn s) !! LinkId m); auto.
    + destruct (chan_send (Some ch) m (chans (sys_conn s))); [|discriminate].
      intros [= <-] m0 ch0; discriminate.
    + intros [= <-] m0 ch0; discriminate.
    + destruct (ctx_done (sys_conn s)); [|discriminate].
      intros [= <-] m0 ch0; discriminate.
  - pose proof (step_other_loopRead a s s' Ha Hstep) as Hlr.
    destruct (step_evolves a s s' Hstep) as (_ & _ & Hu & _ & _ & Hr & _).
    unfold select_target_inv in *. rewrite Hlr, Hu.
    intros m ch Hpc. destruct (Hinv m ch Hpc) as [->|Hid]; auto.
Qed.

Lemma reachable_select_target_inv (cf : Configure) (s : System) :
  reachable cf s -> select_target_inv s.
Proof.
  intros (s0 & started & acts & Hnew & Hrun).
  assert (Hinv0 : select_target_inv s0).
  { unfold New in Hnew. cbn in Hnew. injection Hnew as <- _.
    intros m ch. cbn. discriminate. }
  clear Hnew. revert s0 Hinv0 Hrun.
  induction acts as [|a acts IH]; intros s0 Hinv0; cbn [run].
  - intros [= <-]. exact Hinv0.
  - destruct (step a s0) as [s1|] eqn:Hstep; [|discriminate].
    apply IH. eapply step_select_target_inv; eassumption.
Qed.

(** The one way a step of the read loop changes the channels. *)
Lemma loopRead_step_send (e : LoopReadEvent) (c c' : Conn) (s s' : LoopRead) :
  loopRead_step e c s = Some (c', s') ->
  chans c' = chans c \/
  exists m ch q,
    lr_pc s = LR_Select m ch /\ chans c !! ch = Some q /\
    chans c' = <[ch := chan_push q m]> (chans c).
Proof.
  destruct s as [pc t]. unfold loopRead_step. cbn [lr_pc lr_timeout].
  destruct pc as [|m|m|m ch|]; destruct e as [[m'|err]| | |now|];
    try discriminate.
  - destruct (is_keepalive (XType m')); intros [= <- <-]; left; reflexivity.
  - destruct (is_io_timeout err); [destruct (60 <=? int_add t 1)|];
      intros [= <- <-]; left; [|reflexivity..].
    rewrite loop_return_chans. reflexivity.
  - destruct (drop c !! LinkId m); intros [= <- <-]; left; reflexivity.
  - intros [= <- <-]; left; reflexivity.
  - destruct (chan_send (Some ch) m (chans c)) as [h|] eqn:Hsend; [|discriminate].
    intros [= <- <-]. right.
    apply chan_send_inv in Hsend as (l0 & q & [= <-] & Hq & _ & ->).
    exists m, ch, q. auto.
  - intros [= <- <-]; left; reflexivity.
  - destruct (ctx_done c); [|discriminate].
    intros [= <- <-]; left. apply loop_return_chans.
Qed.

(** X6. In every reachable state, a step of the read loop that changes a
    channel appends one frame to it, and that channel is the unknown channel
    or the channel registered for the frame's own link ID, also when links
    were registered between the lookup and the send; it is never the
    channel of another link, and never the outbound queue. *)
Theorem loopRead_delivers_to_own_link
  (cf : Configure) (s s' : System) (e : LoopReadEvent) (l : chan_ref) :
  reachable cf s ->
  step (ActLoopRead e) s = Some s' ->
  chans (sys_conn s') !! l <> chans (sys_conn s) !! l ->
  exists q m,
    chans (sys_conn s) !! l = Some q /\
    chans (sys_conn s') !! l = Some (chan_push q m) /\
    (l = ChanUnknown (sys_conn s) \/ ChanRead (LinkId m) (sys_conn s) = Some l) /\
    (forall id, ChanRead id (sys_conn s) = Some l -> id = LinkId m) /\
    l <> write (sys_conn s).
Proof.
  intros Hreach Hstep Hchg.
  pose proof (reachable_select_target_inv cf s Hreach) as Hsel.
  pose proof (reachable_wf cf s Hreach) as Hwf.
  unfold step in Hstep.
  destruct (loopRead_step e (sys_conn s) (sys_loopRead s)) as [[c lr]|] eqn:Hs;
    [|discriminate].
  injection Hstep as <-. cbn [sys_conn] in *.
  destruct (loopRead_step_send _ _ _ _ _ Hs) as [Heq|(m & ch & q & Hpc & Hq & Heq)].
  - rewrite Heq in Hchg. contradiction.
  - rewrite Heq in Hchg |- *. destruct (decide (ch = l)) as [->|Hne].
    2:{ rewrite lookup_insert_ne in Hchg by exact Hne. contradiction. }
    exists q, m. rewrite lookup_insert_eq.
    split; [exact Hq|]. split; [reflexivity|].
    unfold ChanUnknown, ChanRead.
    destruct (wf_unknown _ Hwf) as (qu & Hqu & Hcapu).
    destruct (wf_write _ Hwf) as (qw & Hqw & Hcapw).
    destruct (Hsel m l Hpc) as [->|Hid].
    + split; [left; reflexivity|]. split.
      * intros id Hid. destruct (wf_links _ Hwf id _ Hid) as (q' & Hq' & Hcap').
        rewrite Hqu in Hq'. injection Hq' as <-. lia.
      * apply (wf_distinct _ Hwf).
    + split; [right; exact Hid|]. split.
      * intros id Hid'. eapply wf_inj; eassumption.
      * destruct (wf_links _ Hwf _ _ Hid) as (q' & Hq' & Hcap').
        intros ->. rewrite Hqw in Hq'. injection Hq' as <-. lia.
Qed.

Lemma loopRead_delivers_to_own_link_witness :
  exists q m,
    chans (sys_conn sys_at_select) !! 3%positive = Some q /\
    chans (sys_conn sys_delivered) !! 3%positive = Some (chan_push q m) /\
    (forall id, ChanRead id (sys_conn sys_at_select) = Some 3%positive ->
       id = LinkId m).
Proof.
  destruct (loopRead_delivers_to_own_link cfg0 sys_at_select sys_delivered
              EvSendCase 3%positive) as (q & m & Hq & Hq' & _ & Hown & _).
  - apply (reachable_run cfg0 sys0 _
             [ActAddLink "A";
              ActLoopRead (EvReadMessage (ReadOk (data "A" "peer")));
              ActLoopRead EvRLocked; ActLoopRead EvRLocked] reachable_sys0).
    vm_compute. reflexivity.
  - vm_compute. reflexivity.
  - vm_compute. discriminate.
  - exists q, m. auto.
Defined.

(** ** Frames of a link arrive in order *)

Lemma deliveries_run (ms : list Msg) (c : Conn) (t : Z) (ch : chan_ref) (q : Chan) :
  Forall (deliverable c ch) ms ->
  chans c !! ch = Some q ->
  (length (chan_buf q) + length ms <= chan_cap q)%nat ->
  exists c',
    loopRead_run (deliveries ms) c (mkLoopRead LR_Read t) =
      Some (c', mkLoopRead LR_Read (match ms with [] => t | _ => 0 end)) /\
    chans c' !! ch = Some (mkChan (chan_cap q) (chan_buf q ++ ms)) /\
    (forall l, l <> ch -> chans c' !! l = chans c !! l) /\
    read c' = read c /\ unknownRead c' = unknownRead c /\
    drop c' = drop c /\ ctx_done c' = ctx_done c.
Proof.
  revert c t q. induction ms as [|m ms IH]; intros c t q Hall Hq Hlen.
  - exists c. cbn. rewrite app_nil_r. destruct q. cbn in *. auto 10.
  - apply Forall_cons in Hall as [(Hka & Hdrop & Htgt) Hall].
    unfold deliveries in *. cbn [flat_map]. rewrite loopRead_run_app.
    destruct (loopRead_reaches_select c t m Hka Hdrop) as (ch' & Hch' & Hsel).
    assert (ch' = ch) as ->.
    { unfold target in Htgt. destruct (read c !! LinkId m); congruence. }
    change (delivery m) with
      ([EvReadMessage (ReadOk m); EvRLocked; EvRLocked] ++ [EvSendCase])%list.
    rewrite loopRead_run_app, Hsel. cbn [loopRead_run].
    unfold loopRead_step at 1. cbn [lr_pc lr_timeout].
    change (chans (logged_read m c)) with (chans c).
    cbn [length] in Hlen.
    rewrite (chan_send_room ch q m (chans c) Hq) by lia.
    set (c1 := set_chans (<[ch := chan_push q m]> (chans c)) (logged_read m c)).
    destruct (IH c1 0 (chan_push q m)) as (c' & Hrun & Hch & Hoth & Hr & Hu & Hd & Hdone).
    + eapply Forall_impl; [exact Hall|]. intros m' H'. exact H'.
    + cbn. apply lookup_insert_eq.
    + cbn. rewrite length_app. cbn. lia.
    + exists c'. split.
      { rewrite Hrun. destruct ms; reflexivity. }
      split.
      { rewrite Hch. cbn. rewrite <- app_assoc. reflexivity. }
      split.
      { intros l Hl. rewrite (Hoth l Hl). cbn. apply lookup_insert_ne. congruence. }
      rewrite Hr, Hu, Hd, Hdone. auto.
Qed.

(** X7. Frames that the read loop delivers one after the other to the same
    channel, each not a keepalive and of a link that is not suppressed, are
    in the channel in the order they were read, behind what the channel
    held, as long as the channel has room for them; no other channel and no
    drop entry changes. *)
Theorem loopRead_preserves_order
  (ms : list Msg) (c : Conn) (t : Z) (ch : chan_ref) (q : Chan) :
  Forall (deliverable c ch) ms ->
  chans c !! ch = Some q ->
  (length (chan_buf q) + length ms <= chan_cap q)%nat ->
  exists c' t',
    loopRead_run (deliveries ms) c (mkLoopRead LR_Read t) =
      Some (c', mkLoopRead LR_Read t') /\
    pending (chans c') ch = (pending (chans c) ch ++ ms)%list /\
    (forall l, l <> ch -> chans c' !! l = chans c !! l) /\
    drop c' = drop c.
Proof.
  intros Hall Hq Hlen.
  destruct (deliveries_run ms c t ch q Hall Hq Hlen)
    as (c' & Hrun & Hch & Hoth & _ & _ & Hd & _).
  exists c'. eexists. split; [exact Hrun|]. split; [|split; [exact Hoth | exact Hd]].
  unfold pending. rewrite Hch, Hq. reflexivity.
Qed.

Lemma loopRead_preserves_order_witness :
  exists c' t',
    loopRead_run (deliveries [data "A" "peer"; data "A" "other"])
                 (AddLink "A" conn0) (mkLoopRead LR_Read 5) =
      Some (c', mkLoopRead LR_Read t') /\
    pending (chans c') 3%positive = [data "A" "peer"; data "A" "other"].
Proof.
  destruct (loopRead_preserves_order [data "A" "peer"; data "A" "other"]
              (AddLink "A" conn0) 5 3%positive (mkChan 10 []))
    as (c' & t' & Hrun & Hpend & _).
  - repeat constructor.
  - reflexivity.
  - cbn. lia.
  - exists c', t'. split; [exact Hrun | exact Hpend].
Defined.

(** ** Ten frames fit, the eleventh does not *)

(** X8. A newly registered link that nobody drains takes ten frames from
    the read loop, in order.  With the eleventh frame at the select the send
    case cannot be taken; when the timeout case is, the link gets its drop
    entry and the ten frames are still in the channel, in order. *)
Theorem link_channel_takes_ten
  (c : Conn) (id : string) (ms : list Msg) (m11 : Msg) (t now : Z) :
  read c !! id = None ->
  drop c !! id = None ->
  length ms = 10%nat ->
  Forall (fun m => is_keepalive (XType m) = false /\ LinkId m = id) (m11 :: ms) ->
  exists ch c1 c2,
    ChanRead id (AddLink id c) = Some ch /\
    loopRead_run (deliveries ms) (AddLink id c) (mkLoopRead LR_Read t) =
      Some (c1, mkLoopRead LR_Read 0) /\
    pending (chans c1) ch = ms /\
    loopRead_run [EvReadMessage (ReadOk m11); EvRLocked; EvRLocked]
                 c1 (mkLoopRead LR_Read 0) =
      Some (logged_read m11 c1, mkLoopRead (LR_Select m11 ch) 0) /\
    loopRead_step EvSendCase (logged_read m11 c1)
                  (mkLoopRead (LR_Select m11 ch) 0) = None /\
    loopRead_step (EvAfterCase now) (logged_read m11 c1)
                  (mkLoopRead (LR_Select m11 ch) 0) =
      Some (c2, mkLoopRead LR_Read 0) /\
    drop c2 !! id = Some (now + 60 * 1000000000) /\
    pending (chans c2) ch = ms.
Proof.
  intros Hid Hdrop Hlen Hall.
  apply Forall_cons in Hall as [[Hka11 Hid11] Hall].
  set (ch := (chan_make 10 (chans c)).1).
  assert (Hread : read (AddLink id c) !! id = Some ch).
  { rewrite AddLink_absent by exact Hid. cbn. apply lookup_insert_eq. }
  assert (Hchan : chans (AddLink id c) !! ch = Some (mkChan 10 [])).
  { rewrite AddLink_absent by exact Hid. cbn [chans set_chans].
    destruct (chan_make_fresh 10 (chans c)) as [_ ->]. apply lookup_insert_eq. }
  assert (Hdrop' : drop (AddLink id c) !! id = None).
  { rewrite AddLink_absent by exact Hid. exact Hdrop. }
  destruct (deliveries_run ms (AddLink id c) t ch (mkChan 10 []))
    as (c1 & Hrun & Hch & _ & Hr & _ & Hd & _).
  { eapply Forall_impl; [exact Hall|]. intros m [Hka <-].
    unfold deliverable, target. rewrite Hread. auto. }
  { exact Hchan. }
  { cbn. lia. }
  cbn [chan_cap chan_buf app] in Hch.
  assert (Hsel : loopRead_run [EvReadMessage (ReadOk m11); EvRLocked; EvRLocked]
                   c1 (mkLoopRead LR_Read 0) =
                 Some (logged_read m11 c1, mkLoopRead (LR_Select m11 ch) 0)).
  { destruct (loopRead_reaches_select c1 0 m11 Hka11) as (ch' & Hch' & Hsel).
    - rewrite Hd, Hid11. exact Hdrop'.
    - rewrite Hr, Hid11, Hread in Hch'. subst ch'. exact Hsel. }
  exists ch. exists c1. eexists.
  split; [exact Hread|]. split.
  { rewrite Hrun. destruct ms; [discriminate Hlen | reflexivity]. }
  split; [unfold pending; rewrite Hch; reflexivity|].
  split; [exact Hsel|]. split.
  { unfold loopRead_step. cbn [lr_pc lr_timeout].
    change (chans (logged_read m11 c1)) with (chans c1).
    unfold chan_send. rewrite Hch. cbn [chan_buf chan_cap]. rewrite Hlen. reflexivity. }
  split; [reflexivity|]. split.
  - cbn [drop set_drop logf]. rewrite Hid11. apply lookup_insert_eq.
  - cbn [chans set_drop logf logged_read]. unfold pending. rewrite Hch. reflexivity.
Qed.

Lemma link_channel_takes_ten_witness :
  exists ch c1,
    ChanRead "A" (AddLink "A" conn0) = Some ch /\
    loopRead_run (deliveries ten_frames) (AddLink "A" conn0) (mkLoopRead LR_Read 0) =
      Some (c1, mkLoopRead LR_Read 0) /\
    loopRead_step EvSendCase (logged_read (data "A" "late") c1)
                  (mkLoopRead (LR_Select (data "A" "late") ch) 0) = None.
Proof.
  destruct (link_channel_takes_ten conn0 "A" ten_frames (data "A" "late") 0 1000)
    as (ch & c1 & c2 & Hch & Hrun & _ & _ & Hfull & _).
  - reflexivity.
  - reflexivity.
  - reflexivity.
  - repeat constructor.
  - exists ch, c1. auto.
Defined.

(** ** Suppression is per link and is not renewed *)

(** X9. After the timeout case was taken for a frame, a later frame of the
    same link is discarded at the drop check, leaving channels and drop map
    as they are, so that the expiry is not moved; a frame of another link
    that has no entry reaches the select as before. *)
Theorem suppression_is_per_link (c : Conn) (t now : Z) (msg : Msg) (ch : chan_ref) :
  exists c1,
    loopRead_step (EvAfterCase now) c (mkLoopRead (LR_Select msg ch) t) =
      Some (c1, mkLoopRead LR_Read t) /\
    (forall m, is_keepalive (XType m) = false -> LinkId m = LinkId msg ->
       loopRead_run [EvReadMessage (ReadOk m); EvRLocked] c1 (mkLoopRead LR_Read t) =
         Some (logged_read m c1, mkLoopRead LR_Read 0) /\
       chans (logged_read m c1) = chans c /\
       drop (logged_read m c1) !! LinkId msg = Some (now + 60 * 1000000000)) /\
    (forall m, is_keepalive (XType m) = false -> LinkId m <> LinkId msg ->
       drop c !! LinkId m = None ->
       loopRead_run [EvReadMessage (ReadOk m); EvRLocked; EvRLocked]
                    c1 (mkLoopRead LR_Read t) =
         Some (logged_read m c1, mkLoopRead (LR_Select m (target c (LinkId m))) 0)).
Proof.
  eexists. split; [reflexivity|].
  set (c1 := set_drop _ _).
  assert (Hd : drop c1 = <[LinkId msg := now + 60 * 1000000000]> (drop c)) by reflexivity.
  split.
  - intros m Hka Hid. cbn [loopRead_run]. rewrite loopRead_step_ok, Hka.
    unfold loopRead_step. cbn [lr_pc lr_timeout]. fold (logged_read m c1).
    change (drop (logged_read m c1)) with (drop c1).
    rewrite Hd, Hid, lookup_insert_eq. split; [reflexivity|]. split; reflexivity.
  - intros m Hka Hne Hnone.
    destruct (loopRead_reaches_select c1 t m Hka) as (ch' & Hch' & Hsel).
    + rewrite Hd, lookup_insert_ne by congruence. exact Hnone.
    + rewrite Hsel. do 3 f_equal. unfold target.
      change (read c1) with (read c) in Hch'.
      change (unknownRead c1) with (unknownRead c) in Hch'.
      destruct (read c !! LinkId m); congruence.
Qed.

Lemma suppression_is_per_link_witness :
  exists c1,
    loopRead_step (EvAfterCase 1000) (AddLink "A" conn0)
                  (mkLoopRead (LR_Select (data "A" "peer") 3%positive) 0) =
      Some (c1, mkLoopRead LR_Read 0) /\
    loopRead_run [EvReadMessage (ReadOk (data "B" "peer")); EvRLocked; EvRLocked]
                 c1 (mkLoopRead LR_Read 0) =
      Some (logged_read (data "B" "peer") c1,
            mkLoopRead (LR_Select (data "B" "peer")
                          (target (AddLink "A" conn0) "B")) 0).
Proof.
  destruct (suppression_is_per_link (AddLink "A" conn0) 0 1000
              (data "A" "peer") 3%positive) as (c1 & Hstep & _ & Hother).
  exists c1. split; [exact Hstep|].
  apply (Hother (data "B" "peer")); [reflexivity | discriminate | reflexivity].
Defined.

Lemma sweep_round_interleaved_witness :
  drop (sys_conn sys_between) !! "A" = Some (1000 + 60 * 1000000000) /\
  drop (sys_conn sys_swept) !! "A" = None.
Proof.
  pose proof (sweep_round_interleaved cfg0 sys_timed_out sys_scanned sys_between
                sys_swept late [ActAddLink "B"] reachable_timed_out
                eq_refl eq_refl eq_refl eq_refl "A") as H.
  vm_compute in H. vm_compute. exact H.
Defined.

(** X10. In every reachable state, a drop entry that exists is never
    overwritten: after any step it is still there with the same expiry, or
    it is gone and the step was the deleting step of the sweep.  The
    suppression of a link is counted from the timeout that started it. *)
Theorem drop_entry_never_extended
  (cf : Configure) (s s' : System) (a : Action) (k : string) (t : Time) :
  reachable cf s ->
  step a s = Some s' ->
  drop (sys_conn s) !! k = Some t ->
  drop (sys_conn s') !! k = Some t \/
  (a = ActCheckDrop EvLocked /\ drop (sys_conn s') !! k = None).
Proof.
  intros Hreach Hstep Hk.
  destruct (is_checkDrop a) eqn:Ha.
  - destruct a as [|?|e| | | |]; try discriminate Ha.
    unfold step, checkDrop_step in Hstep.
    destruct (sys_checkDrop s) as [|drops]; destruct e as [now|];
      try discriminate Hstep; injection Hstep as <-.
    + left. exact Hk.
    + cbn [sys_conn drop set_drop]. rewrite delete_all_lookup.
      case_decide; [right; auto | left; exact Hk].
  - left. eapply step_keeps_entry; try eassumption.
    eapply reachable_no_entry_inv, Hreach.
Qed.

Lemma drop_entry_never_extended_witness :
  drop (sys_conn sys_scanned) !! "A" = Some (1000 + 60 * 1000000000) \/
  (ActCheckDrop (EvScan late) = ActCheckDrop EvLocked /\
   drop (sys_conn sys_scanned) !! "A" = None).
Proof.
  apply (drop_entry_never_extended cfg0 sys_timed_out sys_scanned
           (ActCheckDrop (EvScan late)) "A" (1000 + 60 * 1000000000)
           reachable_timed_out).
  - reflexivity.
  - vm_compute. reflexivity.
Defined.

(** ** Rounds of the sweep *)

Lemma checkDrop_round_drop_eq (now : string -> Time) (c : Conn) :
  (forall k t, drop c !! k = Some t -> time.After (now k) t = false) ->
  drop (checkDrop_round now c) = drop c.
Proof.
  intros Hfresh. apply map_eq. intros k. rewrite checkDrop_round_lookup.
  destruct (drop c !! k) as [t|] eqn:Hk; [|reflexivity].
  rewrite (Hfresh k t Hk). reflexivity.
Qed.

(** X12. A round of the sweep only removes entries; it changes nothing but
    the drop map; when no entry has expired it leaves the map as it is; and
    a second round with the same readings of the clock removes nothing
    more. *)
Theorem checkDrop_round_only_removes (now : string -> Time) (c : Conn) :
  (forall k t, drop (checkDrop_round now c) !! k = Some t ->
     drop c !! k = Some t /\ t >= now k) /\
  set_drop (drop c) (checkDrop_round now c) = c /\
  ((forall k t, drop c !! k = Some t -> now k <= t) ->
   checkDrop_round now c = c) /\
  checkDrop_round now (checkDrop_round now c) = checkDrop_round now c.
Proof.
  assert (Hsub : forall k t, drop (checkDrop_round now c) !! k = Some t ->
            drop c !! k = Some t /\ t >= now k).
  { intros k t. rewrite checkDrop_round_lookup.
    destruct (drop c !! k) as [t'|]; [|discriminate].
    unfold time.After. destruct (Z.ltb_spec t' (now k)); [discriminate|].
    intros [= <-]. split; [reflexivity | lia]. }
  assert (Hid : forall c0 : Conn,
            (forall k t, drop c0 !! k = Some t -> time.After (now k) t = false) ->
            checkDrop_round now c0 = c0).
  { intros c0 Hfresh. unfold checkDrop_round.
    change (delete_all (scan_drops now (drop c0)) (drop c0))
      with (drop (checkDrop_round now c0)).
    rewrite (checkDrop_round_drop_eq now c0 Hfresh). destruct c0; reflexivity. }
  split; [exact Hsub|]. split; [destruct c; reflexivity|]. split.
  - intros Hfresh. apply Hid. intros k t Hk. unfold time.After.
    apply Z.ltb_ge. apply (Hfresh k t Hk).
  - apply Hid. intros k t Hk. destruct (Hsub k t Hk) as [_ Hge].
    unfold time.After. apply Z.ltb_ge. lia.
Qed.

Lemma checkDrop_round_only_removes_witness :
  checkDrop_round (fun _ => 500) suppressed0 = suppressed0.
Proof.
  destruct (checkDrop_round_only_removes (fun _ => 500) suppressed0)
    as (_ & _ & H & _).
  apply H. intros k t Hk.
  destruct (decide (k = "A")) as [->|Hne].
  - vm_compute in Hk. injection Hk as <-. lia.
  - unfold suppressed0 in Hk. cbn [drop set_drop] in Hk.
    rewrite lookup_singleton_ne in Hk by congruence. discriminate.
Defined.

(** ** Which read errors count as timeouts *)

Lemma append_cons (a : Ascii.ascii) (p post : string) :
  (String a p ++ post)%string = String a (p ++ post)%string.
Proof. reflexivity. Qed.

Lemma prefix_spec (p s : string) :
  String.prefix p s = true <-> exists post, s = (p ++ post)%string.
Proof.
  revert s. induction p as [|a p IH]; intros s.
  - split; [intros _; exists s; reflexivity | intros _; destruct s; reflexivity].
  - destruct s as [|b s]; cbn.
    + split; [discriminate | intros [post Hpost]; discriminate].
    + destruct (Ascii.ascii_dec a b) as [->|Hne].
      * rewrite IH. split; intros [post Hpost]; exists post.
        -- rewrite append_cons. congruence.
        -- rewrite append_cons in Hpost. congruence.
      * split; [discriminate|]. intros [post Hpost].
        rewrite append_cons in Hpost. congruence.
Qed.

Lemma Contains_spec (s sub : string) :
  strings.Contains s sub = true <->
  exists pre post, s = (pre ++ sub ++ post)%string.
Proof.
  induction s as [|a s IH]; cbn [strings.Contains].
  - rewrite orb_false_r, prefix_spec. split.
    + intros [post Hpost]. exists ""%string, post. exact Hpost.
    + intros (pre & post & Hs). destruct pre; [|discriminate].
      exists post. exact Hs.
  - rewrite orb_true_iff, prefix_spec, IH. split.
    + intros [[post Hpost]|(pre & post & Hs)].
      * exists ""%string, post. exact Hpost.
      * exists (String a pre), post. rewrite append_cons. congruence.
    + intros (pre & post & Hs). destruct pre as [|b pre].
      * left. exists post. exact Hs.
      * right. exists pre, post. rewrite append_cons in Hs. congruence.
Qed.

(** X13. The read loop counts a failed read as a timeout exactly when the
    text of the error has "i/o timeout" somewhere in it, whatever comes
    before and after; every other error takes the branch that leaves the
    counter alone. *)
Theorem io_timeout_is_substring (err : string) (c : Conn) (t : Z) :
  (is_io_timeout err = true <->
   exists pre post, err = (pre ++ "i/o timeout" ++ post)%string) /\
  ((forall pre post, err <> (pre ++ "i/o timeout" ++ post)%string) ->
   loopRead_step (EvReadMessage (ReadErr err)) c (mkLoopRead LR_Read t) =
     Some (logf logging.Error "read message: %v" [logging.AStr err] c,
           mkLoopRead LR_Read t)).
Proof.
  split; [apply Contains_spec|].
  intros Hno. apply loopRead_step_error.
  destruct (is_io_timeout err) eqn:Herr; [|reflexivity].
  apply Contains_spec in Herr as (pre & post & Heq).
  exfalso. exact (Hno pre post Heq).
Qed.

Lemma io_timeout_is_substring_witness :
  is_io_timeout "read tcp 10.0.0.2:6154: i/o timeout (client)" = true.
Proof.
  apply (proj1 (io_timeout_is_substring
                  "read tcp 10.0.0.2:6154: i/o timeout (client)" conn0 0)).
  exists "read tcp 10.0.0.2:6154: "%string, " (client)"%string. reflexivity.
Defined.

(** ** Teardown *)

Lemma step_net (a : Action) (s s' : System) :
  step a s = Some s' ->
  net (sys_conn s') = net (sys_conn s) \/
  net (sys_conn s') = (net (sys_conn s) ++ [NetClose])%list \/
  exists m err,
    net (sys_conn s') = (net (sys_conn s) ++ [write_call (cfg (sys_conn s)) m err])%list.
Proof.
  assert (Hret : forall c, net (loop_return c) = net c \/
                           net (loop_return c) = (net c ++ [NetClose])%list).
  { intros c. unfold loop_return, close, cancel.
    destruct c as [? [?|]]; cbn; auto. }
  unfold step. destruct a as [e|e|e|id|id m|ch|m].
  - destruct (sys_loopRead s) as [pc t].
    unfold loopRead_step. cbn [lr_pc lr_timeout].
    destruct pc as [|m|m|m ch|]; destruct e as [[m'|err]| | |now|];
      try discriminate.
    + destruct (is_keepalive (XType m')); intros [= <-]; left; reflexivity.
    + destruct (is_io_timeout err); [destruct (60 <=? int_add t 1)|];
        intros [= <-]; cbn [sys_conn]; [|left; reflexivity..].
      destruct (Hret (logf logging.Error "too many timeout times" [] (sys_conn s)));
        auto.
    + destruct (drop (sys_conn s) !! LinkId m); intros [= <-]; left; reflexivity.
    + intros [= <-]; left; reflexivity.
    + destruct (chan_send (Some ch) m (chans (sys_conn s))); [|discriminate].
      intros [= <-]; left; reflexivity.
    + intros [= <-]; left; reflexivity.
    + destruct (ctx_done (sys_conn s)); [|discriminate].
      intros [= <-]. cbn [sys_conn]. destruct (Hret (sys_conn s)); auto.
  - unfold loopWrite_step.
    destruct (sys_loopWrite s) as [|m|]; destruct e as [| |err]; try discriminate.
    + destruct (chan_recv (Some (write (sys_conn s))) (chans (sys_conn s)))
        as [[m h]|]; [|discriminate].
      intros [= <-]; left; reflexivity.
    + destruct (ctx_done (sys_conn s)); [|discriminate].
      intros [= <-]. cbn [sys_conn]. destruct (Hret (sys_conn s)); auto.
    + destruct err; intros [= <-]; right; right; eexists _, _; reflexivity.
  - unfold checkDrop_step.
    destruct (sys_checkDrop s); destruct e; try discriminate;
      intros [= <-]; left; reflexivity.
  - intros [= <-]. left. cbn [with_conn sys_conn]. unfold AddLink. cbn [read logf].
    destruct (read (sys_conn s) !! id); [reflexivity|].
    destruct (chan_make 10 (chans (sys_conn s))). reflexivity.
  - unfold Reset, Reset_send.
    destruct (chan_send (read (sys_conn s) !! id) m (chans (sys_conn s)));
      [|discriminate].
    intros [= <-]; left; reflexivity.
  - destruct (chan_recv (Some ch) (chans (sys_conn s))) as [[m h]|]; [|discriminate].
    intros [= <-]; left; reflexivity.
  - destruct (chan_send (Some (write (sys_conn s))) m (chans (sys_conn s)));
      [|discriminate].
    intros [= <-]; left; reflexivity.
Qed.

(** A loop that returns at a step has run its deferred calls. *)
Lemma step_returns (a : Action) (s s' : System) :
  step a s = Some s' ->
  lr_pc (sys_loopRead s') = LR_Returned \/ sys_loopWrite s' = LW_Returned ->
  (lr_pc (sys_loopRead s) = LR_Returned \/ sys_loopWrite s = LW_Returned) \/
  exists c0, conn c0 = conn (sys_conn s) /\ sys_conn s' = loop_return c0.
Proof.
  unfold step. destruct a as [e|e|e|id|id m|ch|m].
  - destruct (sys_loopRead s) as [pc t].
    unfold loopRead_step. cbn [lr_pc lr_timeout].
    destruct pc as [|m|m|m ch|]; destruct e as [[m'|err]| | |now|];
      try discriminate.
    + destruct (is_keepalive (XType m')); intros [= <-]; cbn;
        intros [H|H]; [discriminate | auto | discriminate | auto].
    + destruct (is_io_timeout err); [destruct (60 <=? int_add t 1)|];
        intros [= <-]; cbn; intros [H|H]; try discriminate; auto.
      right. eexists. split; [|reflexivity]. reflexivity.
    + destruct (drop (sys_conn s) !! LinkId m); intros [= <-]; cbn;
        intros [H|H]; try discriminate; auto.
    + intros [= <-]; cbn; intros [H|H]; try discriminate; auto.
    + destruct (chan_send (Some ch) m (chans (sys_conn s))); [|discriminate].
      intros [= <-]; cbn; intros [H|H]; try discriminate; auto.
    + intros [= <-]; cbn; intros [H|H]; try discriminate; auto.
    + destruct (ctx_done (sys_conn s)); [|discriminate].
      intros [= <-]; cbn; intros _. right. eexists. split; reflexivity.
  - unfold loopWrite_step.
    destruct (sys_loopWrite s) as [|m|]; destruct e as [| |err]; try discriminate.
    + destruct (chan_recv (Some (write (sys_conn s))) (chans (sys_conn s)))
        as [[m h]|]; [|discriminate].
      intros [= <-]; cbn; intros [H|H]; try discriminate; auto.
    + destruct (ctx_done (sys_conn s)); [|discriminate].
      intros [= <-]; cbn; intros _. right. eexists. split; reflexivity.
    + destruct err; intros [= <-]; cbn; intros [H|H]; try discriminate; auto.
  - destruct (checkDrop_step e (sys_conn s) (sys_checkDrop s)) as [[c cd]|];
      [|discriminate].
    intros [= <-]; cbn; auto.
  - intros [= <-]; cbn; auto.
  - destruct (Reset id m (sys_conn s)); [|discriminate]. intros [= <-]; cbn; auto.
  - destruct (chan_recv (Some ch) (chans (sys_conn s))) as [[m0 h]|]; [|discriminate].
    intros [= <-]; cbn; auto.
  - destruct (chan_send (Some (write (sys_conn s))) m (chans (sys_conn s)));
      [|discriminate].
    intros [= <-]; cbn; auto.
Qed.

Lemma loop_return_torn_down (c : Conn) : is_Some (conn c) -> torn_down (loop_return c).
Proof.
  intros Hc. unfold torn_down, Wait. rewrite loop_return_done.
  split; [reflexivity|]. split; [|reflexivity].
  rewrite (loop_return_closed c Hc). apply in_or_app. right. left. reflexivity.
Qed.

Lemma step_teardown_inv (cf : Configure) (a : Action) (s s' : System) :
  teardown_inv cf s -> step a s = Some s' -> teardown_inv cf s'.
Proof.
  intros (Hcfg & Hconn & Hnet & Hret) Hstep.
  destruct (step_evolves a s s' Hstep) as (Hc & Hn & _ & _ & Hd & _ & [ks Hks] & _).
  unfold teardown_inv. rewrite Hc, Hn.
  split; [exact Hcfg|]. split; [exact Hconn|]. split.
  - destruct (step_net a s s' Hstep) as [->|[->|(m & err & ->)]].
    + exact Hnet.
    + apply Forall_app. split; [exact Hnet|]. repeat constructor.
    + apply Forall_app. split; [exact Hnet|].
      constructor; [|constructor]. unfold written_by, write_call. cbn.
      rewrite Hcfg. auto.
  - intros Hr.
    destruct (step_returns a s s' Hstep Hr) as [Hbefore|(c0 & Hc0 & ->)].
    + destruct (Hret Hbefore) as (Hdone & Hclose & _).
      unfold torn_down, Wait. rewrite (Hd Hdone).
      split; [reflexivity|]. split; [|reflexivity].
      rewrite Hks. apply in_or_app. left. exact Hclose.
    + apply loop_return_torn_down. rewrite Hc0. exact Hconn.
Qed.

Lemma reachable_teardown_inv (cf : Configure) (s : System) :
  reachable cf s -> teardown_inv cf s.
Proof.
  intros (s0 & started & acts & Hnew & Hrun).
  assert (Hinv0 : teardown_inv cf s0).
  { unfold New in Hnew. cbn in Hnew. injection Hnew as <- _.
    unfold teardown_inv. cbn. split; [reflexivity|]. split; [eauto|]. split.
    - repeat constructor.
    - intros [H|H]; discriminate. }
  clear Hnew. revert s0 Hinv0 Hrun.
  induction acts as [|a acts IH]; intros s0 Hinv0; cbn [run].
  - intros [= <-]. exact Hinv0.
  - destruct (step a s0) as [s1|] eqn:Hstep; [|discriminate].
    apply IH. eapply step_teardown_inv; eassumption.
Qed.

(** X14. In every reachable state in which the read loop or the write loop
    has returned, the context is cancelled, Close has been called on the
    link, and Wait returns. *)
Theorem returned_loop_tears_down (cf : Configure) (s : System) :
  reachable cf s ->
  lr_pc (sys_loopRead s) = LR_Returned \/ sys_loopWrite s = LW_Returned ->
  ctx_done (sys_conn s) = true /\
  In NetClose (net (sys_conn s)) /\
  Wait (sys_conn s) = Some tt.
Proof.
  intros Hreach Hret.
  destruct (reachable_teardown_inv cf s Hreach) as (_ & _ & _ & H).
  exact (H Hret).
Qed.

Lemma reachable_dead : reachable cfg0 sys_dead.
Proof.
  apply (reachable_run cfg0 sys0 _
           (List.repeat (ActLoopRead (EvReadMessage (ReadErr "i/o timeout"))) 60)
           reachable_sys0).
  vm_compute. reflexivity.
Qed.

Lemma returned_loop_tears_down_witness : Wait (sys_conn sys_dead) = Some tt.
Proof.
  refine (proj2 (proj2 (returned_loop_tears_down cfg0 sys_dead reachable_dead _))).
  left. vm_compute. reflexivity.
Defined.

(** X15. In every reachable state the configuration is the one given to
    New, and every frame written to the link so far carries the configured
    client ID as its sender and was written with the five seconds of the
    handshake or with the configured write timeout. *)
Theorem written_frames_carry_local_id
  (cf : Configure) (s : System) (m : Msg) (timeout : Duration) (err : option string) :
  reachable cf s ->
  In (NetWriteMessage m timeout err) (net (sys_conn s)) ->
  cfg (sys_conn s) = cf /\
  From m = ID cf /\
  (timeout = 5 * 1000000000 \/ timeout = WriteTimeout cf).
Proof.
  intros Hreach Hin.
  destruct (reachable_teardown_inv cf s Hreach) as (Hcfg & _ & Hnet & _).
  split; [exact Hcfg|].
  rewrite Forall_forall in Hnet. apply (Hnet _ (proj2 (list_elem_of_In _ _) Hin)).
Qed.

Lemma written_frames_carry_local_id_witness :
  From (handshake_msg cfg0) = ID cfg0.
Proof.
  refine (proj1 (proj2 (written_frames_carry_local_id cfg0 sys_dead
                          (handshake_msg cfg0) (5 * 1000000000) None
                          reachable_dead _))).
  vm_compute. auto.
Defined.

(** ** Read errors that are not timeouts *)

(** X16. However many reads in a row fail with errors that are not
    timeouts, the read loop does not return: it logs each error and reads
    again, with the counter, the context, the network trace and the
    channels unchanged; and at its read it has no case for the cancellation
    of the context. *)
Theorem loopRead_keeps_reading_on_errors (errs : list string) (c : Conn) (t : Z) :
  Forall (fun err => is_io_timeout err = false) errs ->
  (exists c',
     loopRead_run (failed_reads errs) c (mkLoopRead LR_Read t) =
       Some (c', mkLoopRead LR_Read t) /\
     ctx_done c' = ctx_done c /\ net c' = net c /\ chans c' = chans c /\
     length (log c') = (length (log c) + length errs)%nat) /\
  loopRead_step EvDoneCase c (mkLoopRead LR_Read t) = None.
Proof.
  intros Hall. split; [|reflexivity].
  revert c. induction errs as [|err errs IH]; intros c.
  - exists c. cbn. repeat split; lia.
  - apply Forall_cons in Hall as [Herr Hall].
    cbn [failed_reads List.map loopRead_run].
    rewrite (loopRead_step_error c t err Herr).
    destruct (IH Hall (logf logging.Error "read message: %v" [logging.AStr err] c))
      as (c' & Hrun & Hd & Hn & Hc & Hl).
    exists c'. split; [exact Hrun|]. rewrite Hd, Hn, Hc, Hl. cbn.
    rewrite length_app. cbn. repeat split; lia.
Qed.

Lemma loopRead_keeps_reading_on_errors_witness :
  exists c',
    loopRead_run (failed_reads ["EOF"; "use of closed network connection"])
                 (cancel conn0) (mkLoopRead LR_Read 3) =
      Some (c', mkLoopRead LR_Read 3).
Proof.
  destruct (loopRead_keeps_reading_on_errors
              ["EOF"; "use of closed network connection"] (cancel conn0) 3)
    as [(c' & Hrun & _) _].
  - repeat constructor.
  - exists c'. exact Hrun.
Defined.

(** ** Outbound frames leave in queue order *)

Lemma loopWrite_round (c : Conn) (q : Chan) (m : Msg) (rest : list Msg)
  (err : option string) :
  chans c !! write c = Some q ->
  chan_buf q = m :: rest ->
  exists c2,
    loopWrite_run [EvRecvCase; EvWriteMessage err] c LW_Select = Some (c2, LW_Select) /\
    net c2 = (net c ++ [write_call (cfg c) m err])%list /\
    chans c2 = <[write c := mkChan (chan_cap q) rest]> (chans c) /\
    cfg c2 = cfg c /\ write c2 = write c.
Proof.
  intros Hq Hbuf. cbn [loopWrite_run]. unfold loopWrite_step at 1.
  rewrite (chan_recv_head (write c) q m rest (chans c) Hq Hbuf).
  unfold loopWrite_step.
  destruct err; eexists; (split; [reflexivity|]); cbn; auto.
Qed.

Lemma loopWrite_run_app (es1 es2 : list LoopWriteEvent) (c : Conn) (pc : LoopWritePC) :
  loopWrite_run (es1 ++ es2) c pc =
    match loopWrite_run es1 c pc with
    | Some (c', pc') => loopWrite_run es2 c' pc'
    | None => None
    end.
Proof.
  revert c pc. induction es1 as [|e es1 IH]; intros c pc; cbn [loopWrite_run app].
  - reflexivity.
  - destruct (loopWrite_step e c pc) as [[c' pc']|]; [apply IH | reflexivity].
Qed.

(** X17. The write loop takes the queued messages one by one from the head
    of the outbound queue and makes one WriteMessage call for each, in the
    order of the queue, whether the calls succeed or fail; what was queued
    behind them is still queued, and no other channel changes. *)
Theorem loopWrite_preserves_order
  (ms : list Msg) (errs : list (option string)) (rest : list Msg)
  (c : Conn) (q : Chan) :
  chans c !! write c = Some q ->
  chan_buf q = (ms ++ rest)%list ->
  length errs = length ms ->
  exists c',
    loopWrite_run (write_rounds errs) c LW_Select = Some (c', LW_Select) /\
    net c' = (net c ++ zip_with (write_call (cfg c)) ms errs)%list /\
    pending (chans c') (write c) = rest /\
    (forall l, l <> write c -> chans c' !! l = chans c !! l).
Proof.
  revert errs c q. induction ms as [|m ms IH]; intros errs c q Hq Hbuf Hlen.
  - destruct errs; [|discriminate Hlen]. exists c. cbn.
    rewrite app_nil_r. unfold pending. rewrite Hq. auto.
  - destruct errs as [|err errs]; [discriminate Hlen|].
    injection Hlen as Hlen. cbn [app] in Hbuf.
    unfold write_rounds. cbn [flat_map]. rewrite loopWrite_run_app.
    destruct (loopWrite_round c q m (ms ++ rest)%list err Hq Hbuf)
      as (c2 & Hrun & Hnet & Hch & Hcfg & Hw).
    rewrite Hrun.
    destruct (IH errs c2 (mkChan (chan_cap q) (ms ++ rest)%list))
      as (c' & Hrun' & Hnet' & Hpend & Hoth).
    + rewrite Hw, Hch. apply lookup_insert_eq.
    + reflexivity.
    + exact Hlen.
    + exists c'. split; [exact Hrun'|]. split.
      { rewrite Hnet', Hnet, Hcfg, <- app_assoc. reflexivity. }
      split; [rewrite <- Hw; exact Hpend|].
      intros l Hl. rewrite Hoth by (rewrite Hw; exact Hl).
      rewrite Hch. apply lookup_insert_ne. congruence.
Qed.

Lemma loopWrite_preserves_order_witness :
  exists c',
    loopWrite_run (write_rounds [Some "broken pipe"; None]) queued0 LW_Select =
      Some (c', LW_Select) /\
    net c' = (net queued0 ++
              [write_call cfg0 (data "A" "app") (Some "broken pipe");
               write_call cfg0 (data "B" "app") None])%list.
Proof.
  destruct (loopWrite_preserves_order [data "A" "app"; data "B" "app"]
              [Some "broken pipe"; None] [] queued0
              (mkChan 1024 [data "A" "app"; data "B" "app"]))
    as (c' & Hrun & Hnet & _); [reflexivity | reflexivity | reflexivity |].
  exists c'. split; [exact Hrun | exact Hnet].
Defined.

(** ** Before any link is registered *)

Lemma New_initial (cf : Configure) (s : System) (started : list Goroutine) :
  New cf None None = New_ok s started ->
  read (sys_conn s) = ∅ /\ drop (sys_conn s) = ∅ /\
  ctx_done (sys_conn s) = false /\
  sys_loopRead s = mkLoopRead LR_Read 0 /\
  chans (sys_conn s) !! unknownRead (sys_conn s) = Some (mkChan 1024 []).
Proof.
  intros Hnew. pose proof (New_wf cf s started Hnew) as Hwf.
  pose proof (wf_distinct _ Hwf) as Hne.
  unfold New in Hnew. cbn in Hnew. injection Hnew as <- _.
  cbn in *. repeat split.
  all: try (rewrite lookup_insert_ne by congruence; apply lookup_insert_eq).
Qed.

(** X18. Right after New no link is registered and the context is not
    cancelled; up to 1024 frames that are not keepalives, whatever their
    link IDs, are delivered by the read loop to the unknown channel, in the
    order they were read. *)
Theorem first_frames_go_to_unknown
  (cf : Configure) (s : System) (started : list Goroutine) (ms : list Msg) :
  New cf None None = New_ok s started ->
  Forall (fun m => is_keepalive (XType m) = false) ms ->
  (length ms <= 1024)%nat ->
  (forall id, ChanRead id (sys_conn s) = None) /\
  Wait (sys_conn s) = None /\
  exists c' t',
    loopRead_run (deliveries ms) (sys_conn s) (sys_loopRead s) =
      Some (c', mkLoopRead LR_Read t') /\
    pending (chans c') (ChanUnknown (sys_conn s)) = ms.
Proof.
  intros Hnew Hall Hlen.
  destruct (New_initial cf s started Hnew) as (Hr & Hd & Hdone & Hlr & Hqu).
  unfold ChanRead, ChanUnknown, Wait. rewrite Hr, Hdone, Hlr.
  split; [intros id; apply lookup_empty|]. split; [reflexivity|].
  destruct (deliveries_run ms (sys_conn s) 0 (unknownRead (sys_conn s))
              (mkChan 1024 []))
    as (c' & Hrun & Hch & _).
  - eapply Forall_impl; [exact Hall|]. intros m Hka.
    unfold deliverable, target. rewrite Hr, Hd, !lookup_empty. auto.
  - exact Hqu.
  - cbn. lia.
  - exists c'. eexists. split; [exact Hrun|].
    unfold pending. rewrite Hch. reflexivity.
Qed.

Lemma first_frames_go_to_unknown_witness :
  exists c' t',
    loopRead_run (deliveries [data "A" "peer"; data "B" "peer"])
                 (sys_conn sys0) (sys_loopRead sys0) =
      Some (c', mkLoopRead LR_Read t') /\
    pending (chans c') (ChanUnknown (sys_conn sys0)) =
      [data "A" "peer"; data "B" "peer"].
Proof.
  destruct (first_frames_go_to_unknown cfg0 sys0
              [go_loopRead; go_loopWrite; go_keepalive; go_checkDrop]
              [data "A" "peer"; data "B" "peer"])
    as (_ & _ & H).
  - reflexivity.
  - repeat constructor.
  - cbn. lia.
  - exact H.
Defined.

(** ** AddLink and the other links *)

(** X19. AddLink(id) makes ChanRead(id) return a channel, and leaves every
    other link's registration, every existing channel with the frames it
    holds, the unknown channel and the drop map as they were; in
    particular it does not lift a suppression of the link. *)
Theorem AddLink_preserves_others (id : string) (c : Conn) :
  is_Some (ChanRead id (AddLink id c)) /\
  (forall id', id' <> id -> ChanRead id' (AddLink id c) = ChanRead id' c) /\
  (forall l q, chans c !! l = Some q -> chans (AddLink id c) !! l = Some q) /\
  ChanUnknown (AddLink id c) = ChanUnknown c /\
  drop (AddLink id c) = drop c.
Proof.
  unfold ChanRead, ChanUnknown.
  split; [apply AddLink_registers|].
  destruct (read c !! id) as [ch|] eqn:Hid.
  - rewrite AddLink_present by eauto. cbn. auto.
  - rewrite AddLink_absent by exact Hid. cbn [read chans unknownRead drop set_chans set_read logf].
    destruct (chan_make_fresh 10 (chans c)) as [Hfresh ->].
    split; [|split; [|split; reflexivity]].
    + intros id' Hne. apply lookup_insert_ne. congruence.
    + intros l q Hq. rewrite lookup_insert_ne; [exact Hq | congruence].
Qed.

Lemma AddLink_preserves_others_witness :
  ChanRead "A" (AddLink "B" (AddLink "A" conn0)) = ChanRead "A" (AddLink "A" conn0).
Proof.
  destruct (AddLink_preserves_others "B" (AddLink "A" conn0)) as (_ & H & _).
  apply H. discriminate.
Defined.

(** ** What Reset does and does not do *)

(** X20. For a registered link whose channel has room, Reset puts the
    message at the end of that channel and changes nothing else, whatever
    the message's type and link ID and whether or not the link has a drop
    entry.  When the channel is full Reset blocks; once a consumer has
    taken a message from the channel it goes through. *)
Theorem Reset_effect (id : string) (msg : Msg) (c : Conn) (ch : chan_ref) (q : Chan) :
  read c !! id = Some ch ->
  chans c !! ch = Some q ->
  ((length (chan_buf q) < chan_cap q)%nat ->
   Reset id msg c = Some (set_chans (<[ch := chan_push q msg]> (chans c)) c)) /\
  ((length (chan_buf q) >= chan_cap q)%nat ->
   Reset id msg c = None /\
   forall m rest, chan_buf q = m :: rest ->
     (length (chan_buf q) <= chan_cap q)%nat ->
     exists h c',
       chan_recv (Some ch) (chans c) = Some (m, h) /\
       Reset id msg (set_chans h c) = Some c' /\
       pending (chans c') ch = (rest ++ [msg])%list).
Proof.
  intros Hid Hq. unfold Reset, Reset_send. rewrite Hid. split.
  - intros Hroom. rewrite (chan_send_room ch q msg (chans c) Hq Hroom). reflexivity.
  - intros Hfull. split.
    + unfold chan_send. rewrite Hq.
      destruct (Nat.ltb_spec (length (chan_buf q)) (chan_cap q)); [lia | reflexivity].
    + intros m rest Hbuf Hle.
      rewrite (chan_recv_head ch q m rest (chans c) Hq Hbuf).
      do 2 eexists. split; [reflexivity|]. cbn [read chans set_chans]. rewrite Hid.
      erewrite chan_send_room; [| apply lookup_insert_eq |].
      * split; [reflexivity|]. cbn [chans set_chans].
        unfold pending. rewrite lookup_insert_eq. reflexivity.
      * rewrite Hbuf in Hle. cbn in *. lia.
Qed.

Lemma Reset_effect_witness :
  Reset "A" ping full0 = None.
Proof.
  destruct (Reset_effect "A" ping full0 3%positive (mkChan 10 ten_frames))
    as [_ H].
  - reflexivity.
  - vm_compute. reflexivity.
  - apply H. cbn. lia.
Defined.

(** ** Frames that came before the registration *)

(** X21. A frame for a link that is not registered yet goes to the unknown
    channel; registering the link afterwards does not move it: it is still
    in the unknown channel, the link's new channel is another channel and
    holds only the frames delivered after the registration. *)
Theorem unknown_frames_not_migrated
  (c : Conn) (id : string) (m1 m2 : Msg) (t : Z) (qu : Chan) :
  read c !! id = None ->
  drop c !! id = None ->
  chans c !! unknownRead c = Some qu ->
  (length (chan_buf qu) < chan_cap qu)%nat ->
  is_keepalive (XType m1) = false -> LinkId m1 = id ->
  is_keepalive (XType m2) = false -> LinkId m2 = id ->
  exists c1 c3 ch,
    loopRead_run (delivery m1) c (mkLoopRead LR_Read t) =
      Some (c1, mkLoopRead LR_Read 0) /\
    ChanRead id (AddLink id c1) = Some ch /\
    ch <> ChanUnknown c /\
    loopRead_run (delivery m2) (AddLink id c1) (mkLoopRead LR_Read 0) =
      Some (c3, mkLoopRead LR_Read 0) /\
    pending (chans c3) (ChanUnknown c) = (chan_buf qu ++ [m1])%list /\
    pending (chans c3) ch = [m2].
Proof.
  intros Hid Hdrop Hqu Hroom Hka1 Hid1 Hka2 Hid2. unfold ChanUnknown, ChanRead.
  destruct (deliveries_run [m1] c t (unknownRead c) qu)
    as (c1 & Hrun1 & Hch1 & Hoth1 & Hr1 & Hu1 & Hd1 & _).
  { constructor; [|constructor]. unfold deliverable, target.
    rewrite Hid1, Hid. auto. }
  { exact Hqu. }
  { cbn. lia. }
  unfold deliveries in Hrun1. cbn [flat_map] in Hrun1. rewrite app_nil_r in Hrun1.
  assert (Hid' : read c1 !! id = None) by (rewrite Hr1; exact Hid).
  set (ch := (chan_make 10 (chans c1)).1).
  destruct (chan_make_fresh 10 (chans c1)) as [Hfresh Hheap]. fold ch in Hfresh, Hheap.
  assert (Hne : ch <> unknownRead c) by congruence.
  assert (Hread : read (AddLink id c1) !! id = Some ch).
  { rewrite AddLink_absent by exact Hid'. cbn. apply lookup_insert_eq. }
  assert (Hchans : chans (AddLink id c1) = <[ch := mkChan 10 []]> (chans c1)).
  { rewrite AddLink_absent by exact Hid'. cbn [chans set_chans]. exact Hheap. }
  destruct (deliveries_run [m2] (AddLink id c1) 0 ch (mkChan 10 []))
    as (c3 & Hrun3 & Hch3 & Hoth3 & _).
  { constructor; [|constructor]. unfold deliverable, target.
    rewrite Hid2, Hread. split; [exact Hka2|]. split; [|reflexivity].
    rewrite AddLink_absent by exact Hid'. cbn [drop set_chans set_read logf].
    rewrite Hd1. exact Hdrop. }
  { rewrite Hchans. apply lookup_insert_eq. }
  { cbn. lia. }
  unfold deliveries in Hrun3. cbn [flat_map] in Hrun3. rewrite app_nil_r in Hrun3.
  exists c1, c3, ch. split; [exact Hrun1|]. split; [exact Hread|].
  split; [exact Hne|]. split; [exact Hrun3|]. split.
  - unfold pending. rewrite (Hoth3 (unknownRead c)) by congruence.
    rewrite Hchans, lookup_insert_ne by exact Hne. rewrite Hch1. reflexivity.
  - unfold pending. rewrite Hch3. reflexivity.
Qed.

Lemma unknown_frames_not_migrated_witness :
  exists c1 c3 ch,
    loopRead_run (delivery (data "A" "early")) conn0 (mkLoopRead LR_Read 0) =
      Some (c1, mkLoopRead LR_Read 0) /\
    loopRead_run (delivery (data "A" "later")) (AddLink "A" c1) (mkLoopRead LR_Read 0) =
      Some (c3, mkLoopRead LR_Read 0) /\
    pending (chans c3) (ChanUnknown conn0) = [data "A" "early"] /\
    pending (chans c3) ch = [data "A" "later"].
Proof.
  destruct (unknown_frames_not_migrated conn0 "A" (data "A" "early")
              (data "A" "later") 0 (mkChan 1024 []))
    as (c1 & c3 & ch & H1 & _ & _ & H3 & Hu & Hl);
    try reflexivity; [cbn; lia|].
  exists c1, c3, ch. auto.
Defined.

(** X22. A link registered after the read loop looked the frame's channel
    up and before it sends the frame does not redirect the frame: it goes
    to the unknown channel, and the link's new channel stays empty. *)
Theorem registration_after_lookup (c : Conn) (m : Msg) (t : Z) (qu : Chan) :
  read c !! LinkId m = None ->
  chans c !! unknownRead c = Some qu ->
  (length (chan_buf qu) < chan_cap qu)%nat ->
  exists c' ch,
    loopRead_step EvRLocked c (mkLoopRead (LR_Lookup m) t) =
      Some (c, mkLoopRead (LR_Select m (ChanUnknown c)) t) /\
    loopRead_step EvSendCase (AddLink (LinkId m) c)
                  (mkLoopRead (LR_Select m (ChanUnknown c)) t) =
      Some (c', mkLoopRead LR_Read t) /\
    ChanRead (LinkId m) c' = Some ch /\
    pending (chans c') (ChanUnknown c) = (chan_buf qu ++ [m])%list /\
    pending (chans c') ch = [].
Proof.
  intros Hid Hqu Hroom. unfold ChanUnknown, ChanRead.
  destruct (chan_make_fresh 10 (chans c)) as [Hfresh Hheap].
  set (ch := (chan_make 10 (chans c)).1) in *.
  assert (Hne : ch <> unknownRead c) by congruence.
  assert (Hchans : chans (AddLink (LinkId m) c) = <[ch := mkChan 10 []]> (chans c)).
  { rewrite AddLink_absent by exact Hid. cbn [chans set_chans]. exact Hheap. }
  assert (Hread : read (AddLink (LinkId m) c) !! LinkId m = Some ch).
  { rewrite AddLink_absent by exact Hid. cbn. apply lookup_insert_eq. }
  eexists. exists ch. split.
  { unfold loopRead_step. cbn [lr_pc lr_timeout]. rewrite Hid. reflexivity. }
  unfold loopRead_step. cbn [lr_pc lr_timeout].
  erewrite (chan_send_room (unknownRead c) qu m); [| |exact Hroom].
  2:{ rewrite Hchans, lookup_insert_ne by exact Hne. exact Hqu. }
  split; [reflexivity|]. cbn [read chans set_chans].
  split; [exact Hread|]. unfold pending. split.
  - rewrite lookup_insert_eq. reflexivity.
  - rewrite lookup_insert_ne by congruence. rewrite Hchans, lookup_insert_eq. reflexivity.
Qed.

Lemma registration_after_lookup_witness :
  exists c' ch,
    loopRead_step EvSendCase (AddLink "A" conn0)
                  (mkLoopRead (LR_Select (data "A" "peer") (ChanUnknown conn0)) 0) =
      Some (c', mkLoopRead LR_Read 0) /\
    ChanRead "A" c' = Some ch /\
    pending (chans c') (ChanUnknown conn0) = [data "A" "peer"] /\
    pending (chans c') ch = [].
Proof.
  destruct (registration_after_lookup conn0 (data "A" "peer") 0 (mkChan 1024 []))
    as (c' & ch & _ & Hsend & Hch & Hu & Hl); try reflexivity; [cbn; lia|].
  exists c', ch. auto.
Defined.

(** ** The keepalive loop *)

(** X23. Given a SendKeepalive that does not cancel the context, the
    keepalive loop started on a live connection is still at its select
    after any sequence of ticks, with the context not cancelled: only the
    cancellation of the context ends it, and then its deferred calls run. *)
Theorem keepalive_ends_only_by_cancellation
  (SendKeepalive : Conn -> option Conn) (es : list KeepaliveEvent)
  (c c' : Conn) (pc' : KeepalivePC) :
  (forall c0 c1, SendKeepalive c0 = Some c1 -> ctx_done c1 = ctx_done c0) ->
  ctx_done c = false ->
  keepalive_run SendKeepalive es c KA_Select = Some (c', pc') ->
  pc' = KA_Select /\ ctx_done c' = false /\
  Forall (fun e => e = EvTick) es /\
  keepalive_step SendKeepalive EvKDoneCase (cancel c') KA_Select =
    Some (loop_return (cancel c'), KA_Returned).
Proof.
  intros Hsend. revert c. induction es as [|e es IH]; intros c Hdone; cbn [keepalive_run].
  - intros [= <- <-]. auto.
  - unfold keepalive_step. destruct e.
    + destruct (SendKeepalive c) as [c1|] eqn:Hc1; [|discriminate].
      intros Hrun. destruct (IH c1) as (Hpc & Hd & Hall & Hret).
      * rewrite (Hsend c c1 Hc1). exact Hdone.
      * exact Hrun.
      * auto.
    + rewrite Hdone. discriminate.
Qed.

Lemma keepalive_ends_only_by_cancellation_witness :
  ctx_done (match keepalive_run enqueue_ping [EvTick; EvTick] conn0 KA_Select with
            | Some (c', _) => c'
            | None => conn0
            end) = false.
Proof.
  destruct (keepalive_run enqueue_ping [EvTick; EvTick] conn0 KA_Select)
    as [[c' pc']|] eqn:Hrun; [|reflexivity].
  refine (proj1 (proj2 (keepalive_ends_only_by_cancellation enqueue_ping
                          [EvTick; EvTick] conn0 c' pc' _ eq_refl Hrun))).
  intros c0 c1. unfold enqueue_ping.
  destruct (chan_send (Some (write c0)) ping (chans c0)); [|discriminate].
  intros [= <-]. reflexivity.
Defined.

(** ** No frame for a suppressed link *)

(** X24. In every reachable state, when a step of the read loop puts a
    frame in a channel, the frame's link ID has no drop entry at that
    moment, whatever ran between the drop check and the send: while a link
    has an entry the read loop delivers none of its frames. *)
Theorem suppressed_link_gets_no_frame
  (cf : Configure) (s s' : System) (e : LoopReadEvent) (l : chan_ref) :
  reachable cf s ->
  step (ActLoopRead e) s = Some s' ->
  chans (sys_conn s') !! l <> chans (sys_conn s) !! l ->
  exists q m,
    chans (sys_conn s) !! l = Some q /\
    chans (sys_conn s') !! l = Some (chan_push q m) /\
    drop (sys_conn s) !! LinkId m = None.
Proof.
  intros Hreach Hstep Hchg.
  pose proof (reachable_no_entry_inv cf s Hreach) as Hinv.
  unfold step in Hstep.
  destruct (loopRead_step e (sys_conn s) (sys_loopRead s)) as [[c lr]|] eqn:Hs;
    [|discriminate].
  injection Hstep as <-. cbn [sys_conn] in *.
  destruct (loopRead_step_send _ _ _ _ _ Hs) as [Heq|(m & ch & q & Hpc & Hq & Heq)].
  - rewrite Heq in Hchg. contradiction.
  - rewrite Heq in Hchg |- *. destruct (decide (ch = l)) as [->|Hne].
    2:{ rewrite lookup_insert_ne in Hchg by exact Hne. contradiction. }
    exists q, m. rewrite lookup_insert_eq.
    split; [exact Hq|]. split; [reflexivity|].
    apply Hinv. rewrite Hpc. reflexivity.
Qed.

Lemma suppressed_link_gets_no_frame_witness :
  exists q m,
    chans (sys_conn sys_at_select) !! 3%positive = Some q /\
    chans (sys_conn sys_delivered) !! 3%positive = Some (chan_push q m) /\
    drop (sys_conn sys_at_select) !! LinkId m = None.
Proof.
  apply (suppressed_link_gets_no_frame cfg0 sys_at_select sys_delivered
           EvSendCase 3%positive).
  - apply (reachable_run cfg0 sys0 _
             [ActAddLink "A";
              ActLoopRead (EvReadMessage (ReadOk (data "A" "peer")));
              ActLoopRead EvRLocked; ActLoopRead EvRLocked] reachable_sys0).
    vm_compute. reflexivity.
  - vm_compute. reflexivity.
  - vm_compute. discriminate.
Defined.

(** ** Heartbeats keep the connection *)

Lemma timeouts_run (errs : list string) (c : Conn) (t : Z) :
  Forall (fun err => is_io_timeout err = true) errs ->
  0 <= t ->
  t + Z.of_nat (length errs) < 60 ->
  loopRead_run (failed_reads errs) c (mkLoopRead LR_Read t) =
    Some (c, mkLoopRead LR_Read (t + Z.of_nat (length errs))).
Proof.
  revert t. induction errs as [|err errs IH]; intros t Hall Ht Hlt.
  - cbn. rewrite Z.add_0_r. reflexivity.
  - apply Forall_cons in Hall as [Herr Hall].
    cbn [failed_reads List.map loopRead_run length] in *.
    rewrite (loopRead_step_timeout c t err) by (first [lia | exact Herr]).
    destruct (Z.leb_spec 60 (t + 1)); [lia|].
    fold (failed_reads errs). rewrite IH by (first [exact Hall | lia]).
    do 3 f_equal. lia.
Qed.

(** X25. Fewer than 60 reads in a row that time out, followed by a
    keepalive frame, leave the connection exactly as it was, with the
    counter back at zero: nothing is logged, no channel changes and the
    loop is reading again. *)
Theorem heartbeat_resets_counter (errs : list string) (m : Msg) (c : Conn) :
  Forall (fun err => is_io_timeout err = true) errs ->
  (length errs < 60)%nat ->
  is_keepalive (XType m) = true ->
  loopRead_run (failed_reads errs ++ [EvReadMessage (ReadOk m)])
               c (mkLoopRead LR_Read 0) =
    Some (c, mkLoopRead LR_Read 0).
Proof.
  intros Hall Hlen Hka.
  rewrite loopRead_run_app, (timeouts_run errs c 0 Hall) by lia.
  cbn [loopRead_run]. rewrite loopRead_step_ok, Hka. reflexivity.
Qed.

Lemma heartbeat_resets_counter_witness :
  loopRead_run (failed_reads (List.repeat "read tcp: i/o timeout" 59)
                ++ [EvReadMessage (ReadOk ping)])
               conn0 (mkLoopRead LR_Read 0) =
    Some (conn0, mkLoopRead LR_Read 0).
Proof.
  apply heartbeat_resets_counter.
  - apply Forall_forall. intros err Hin.
    apply list_elem_of_In, repeat_spec in Hin. subst err. reflexivity.
  - rewrite repeat_length. lia.
  - reflexivity.
Defined.
